(** * The nations chart: interpolation of sparse series and draw order

    A shallow embedding of the data functions of the animated chart
    ([interpolateValues], [interpolateData], [order] and the accessor
    [radius]), together with the two host operations they are used with: the
    bisector of d3-array and the comparator sort of the host's arrays.

    Numbers.  The script computes on the doubles of IEEE 754, and the
    development reads them in two ways.

    [number] is the exact reading: rationals and the three special values,
    with sums, products and quotients that do not round, do not overflow and
    know one zero only.  It serves where the script only compares and copies
    numbers, where the result is the same on doubles, and for statements
    that are explicitly about the value of an expression before rounding.
    Its samples and query years are rationals.

    [Binary64.double] is the binary64 format itself, from the Standard
    Library's specification of floating-point arithmetic, with rounding to
    nearest, overflow and signed zeros.  What depends on the arithmetic is
    stated on it.  On doubles in normal form the two readings compare alike
    ([b64_compare_value]) and the bisection returns the same index on both
    ([b64_bisect_left_exact]). *)

From Equations Require Import Equations.
From Stdlib Require Import String.
From Stdlib Require Import List ZArith QArith Qfield Lqa Lia Bool.
From Stdlib Require Import Sorted Permutation Qround SpecFloat.
Import ListNotations.

(** ** Numbers *)

Inductive number : Type :=
| Fin (q : Q)
| PInf
| NInf
| NaN.

(** The infinity (or NaN) that a sign stands for. *)
Definition inf_of_sign (c : comparison) : number :=
  match c with
  | Gt => PInf
  | Lt => NInf
  | Eq => NaN
  end.

Definition nneg (x : number) : number :=
  match x with
  | Fin q => Fin (- q)
  | PInf => NInf
  | NInf => PInf
  | NaN => NaN
  end.

(** [x + y], exact: no rounding and no overflow ([Binary64.add] has
    both). *)
Definition nadd (x y : number) : number :=
  match x, y with
  | NaN, _ | _, NaN => NaN
  | Fin p, Fin q => Fin (p + q)
  | PInf, NInf | NInf, PInf => NaN
  | PInf, _ | _, PInf => PInf
  | NInf, _ | _, NInf => NInf
  end.

(** [x - y] *)
Definition nsub (x y : number) : number := nadd x (nneg y).

(** [x * y], exact ([Binary64.mul] rounds and overflows). *)
Definition nmul (x y : number) : number :=
  match x, y with
  | NaN, _ | _, NaN => NaN
  | Fin p, Fin q => Fin (p * q)
  | PInf, Fin q | Fin q, PInf => inf_of_sign (q ?= 0)
  | NInf, Fin q | Fin q, NInf => inf_of_sign (CompOpp (q ?= 0))
  | PInf, PInf | NInf, NInf => PInf
  | PInf, NInf | NInf, PInf => NInf
  end.

(** [x / y], exact.  The exact reading has one zero, read as the positive
    one: a difference [p - p] of rationals ([Binary64.div] rounds and knows
    the sign of a zero divisor). *)
Definition ndiv (x y : number) : number :=
  match x, y with
  | NaN, _ | _, NaN => NaN
  | Fin p, Fin q => if Qeq_bool q 0 then inf_of_sign (p ?= 0) else Fin (p / q)
  | Fin _, _ => Fin 0
  | PInf, Fin q => match q ?= 0 with Lt => NInf | _ => PInf end
  | NInf, Fin q => match q ?= 0 with Lt => PInf | _ => NInf end
  | _, _ => NaN
  end.

(** [x < y]: false as soon as one side is NaN. *)
Definition nltb (x y : number) : bool :=
  match x, y with
  | NaN, _ | _, NaN => false
  | Fin p, Fin q => match p ?= q with Lt => true | _ => false end
  | Fin _, PInf => true
  | Fin _, NInf => false
  | PInf, _ => false
  | NInf, NInf => false
  | NInf, _ => true
  end.

(** [x >= y]: false as soon as one side is NaN. *)
Definition ngeb (x y : number) : bool :=
  match x, y with
  | NaN, _ | _, NaN => false
  | _, _ => negb (nltb x y)
  end.

(** [x > y] *)
Definition ngtb (x y : number) : bool := nltb y x.

Definition is_finite (x : number) : bool :=
  match x with Fin _ => true | _ => false end.

Definition is_nan (x : number) : bool :=
  match x with NaN => true | _ => false end.

(** Equality of numbers as values: rationals up to [Qeq]. *)
Definition num_eq (x y : number) : Prop :=
  match x, y with
  | Fin p, Fin q => p == q
  | PInf, PInf | NInf, NInf | NaN, NaN => True
  | _, _ => False
  end.

(** ** Exceptions

    A property read from [undefined] throws a TypeError.  A computation
    that may throw returns an [option]; [None] is the thrown error. *)

Definition bind {A B} (m : option A) (k : A -> option B) : option B :=
  match m with
  | Some a => k a
  | None => None
  end.

Notation "x <- m ;; k" := (bind m (fun x => k))
  (at level 61, m at next level, right associativity).

Fixpoint mapM {A B} (f : A -> option B) (l : list A) : option (list B) :=
  match l with
  | [] => Some []
  | a :: l' => b <- f a ;; bs <- mapM f l' ;; Some (b :: bs)
  end.

(** ** Series *)

(** A sample is the two-element array [[year, value]]: [d[0]] is [fst d] and
    [d[1]] is [snd d]. *)
Definition Sample : Type := (Q * Q)%type.
Definition Series : Type := list Sample.

(** [a[i]]: [None] stands for [undefined]. *)
Definition index {A} (a : list A) (i : Z) : option A :=
  if (i <? 0)%Z then None else nth_error a (Z.to_nat i).

(** [values.length] *)
Definition length_of {A} (a : list A) : Z := Z.of_nat (List.length a).

(** ** The bisector of d3-array

    [d3.bisector(function(d) { return d[0]; })] wraps the accessor in the
    comparator [ascending(f(d), x)] and [left] runs
    [while (lo < hi) { mid = lo + hi >>> 1;
       if (compare(a[mid], x) < 0) lo = mid + 1; else hi = mid; } return lo;].
    Indices stay below 2^31, where [>>> 1] is the halving of an integer. *)

Definition ascending (a b : number) : number :=
  if nltb a b then Fin (-1)
  else if ngtb a b then Fin 1
  else if ngeb a b then Fin 0
  else NaN.

Definition bisect_accessor (d : Sample) : number := Fin (fst d).

Definition bisect_compare (d : Sample) (x : number) : number :=
  ascending (bisect_accessor d) x.

Equations? bisect_left (a : Series) (x : number) (lo hi : Z) : option Z
  by wf (Z.to_nat (hi - lo)) lt :=
  bisect_left a x lo hi with Z_lt_dec lo hi := {
    | right _ := Some lo
    | left _ with index a (Z.shiftr (lo + hi) 1) := {
        | None := None
        | Some d with nltb (bisect_compare d x) (Fin 0) := {
            | true := bisect_left a x (Z.shiftr (lo + hi) 1 + 1) hi
            | false := bisect_left a x lo (Z.shiftr (lo + hi) 1) } } }.
Proof.
  all: rewrite Z.shiftr_div_pow2 by lia; change (2 ^ 1)%Z with 2%Z.
  - assert (lo <= (lo + hi) / 2)%Z by (apply Z.div_le_lower_bound; lia). lia.
  - assert ((lo + hi) / 2 < hi)%Z by (apply Z.div_lt_upper_bound; lia). lia.
Qed.

(** ** The script *)

(** [function interpolateValues(values, year)], with
    [bisect = d3.bisector(function(d) { return d[0]; })].  The fraction
    [t = (year - a[0]) / (b[0] - a[0])] is named, as several statements are
    about it. *)
Definition interpolation_fraction (a b : Sample) (year : Q) : number :=
  ndiv (nsub (Fin year) (Fin (fst a))) (nsub (Fin (fst b)) (Fin (fst a))).

Definition interpolateValues (values : Series) (year : Q) : option number :=
  i <- bisect_left values (Fin year) 0 (length_of values - 1) ;;
  a <- index values i ;;
  if (0 <? i)%Z then
    b <- index values (i - 1) ;;
    let t := interpolation_fraction a b year in
    Some (nadd (nmul (Fin (snd a)) (nsub (Fin 1) t)) (nmul (Fin (snd b)) t))
  else
    Some (Fin (snd a)).


(** The records of the dataset and of a frame.  A nation carries three
    series, a snapshot the three numbers interpolated from them. *)
Module Nation.
Record t : Type := {
  name : string;
  region : string;
  income : Series;
  population : Series;
  lifeExpectancy : Series
}.
End Nation.

Module Snapshot.
Record t : Type := {
  name : string;
  region : string;
  income : number;
  population : number;
  lifeExpectancy : number
}.
End Snapshot.

(** [function radius(d) { return d.population; }] *)
Definition radius (d : Snapshot.t) : number := Snapshot.population d.

(** [function interpolateData(year)]: [nations.map(...)], with the dataset
    [nations] of the enclosing callback as a parameter.  The first series that
    throws ends the map. *)
Definition interpolateData (nations : list Nation.t) (year : Q)
  : option (list Snapshot.t) :=
  mapM (fun d =>
          inc <- interpolateValues (Nation.income d) year ;;
          pop <- interpolateValues (Nation.population d) year ;;
          life <- interpolateValues (Nation.lifeExpectancy d) year ;;
          Some {| Snapshot.name := Nation.name d;
                  Snapshot.region := Nation.region d;
                  Snapshot.income := inc;
                  Snapshot.population := pop;
                  Snapshot.lifeExpectancy := life |})
       nations.

(** [function order(a, b) { return radius(b) - radius(a); }] *)
Definition order (a b : Snapshot.t) : number := nsub (radius b) (radius a).

(** ** The sort of the host

    [selection.sort(order)] hands [order] to the sort of the host's arrays.
    The language fixes what the comparator's result means (a NaN counts as
    zero, a positive result puts the first argument after the second) and that
    the sort is stable; for a comparator that is a consistent order this fixes
    the result, which the stable insertion sort below computes. *)

Definition SortCompare {A} (comparefn : A -> A -> number) (x y : A) : number :=
  match comparefn x y with
  | NaN => Fin 0
  | v => v
  end.

Fixpoint sort_insert {A} (comparefn : A -> A -> number) (x : A) (l : list A)
  : list A :=
  match l with
  | [] => [x]
  | y :: l' =>
      if ngtb (SortCompare comparefn x y) (Fin 0)
      then y :: sort_insert comparefn x l'
      else x :: y :: l'
  end.

Fixpoint array_sort {A} (comparefn : A -> A -> number) (l : list A) : list A :=
  match l with
  | [] => []
  | x :: l' => sort_insert comparefn x (array_sort comparefn l')
  end.

(** Every two neighbours of a list are related. *)
Definition adjacent {A} (R : A -> A -> Prop) (l : list A) : Prop :=
  forall k a b, nth_error l k = Some a -> nth_error l (S k) = Some b -> R a b.

(** The larger population first: [population(a) >= population(b)]. *)
Definition population_ge (a b : Snapshot.t) : Prop :=
  ngeb (Snapshot.population a) (Snapshot.population b) = true.

(** ** Order of a series *)

Definition year_lt (a b : Sample) : Prop := fst a < fst b.
Definition year_le (a b : Sample) : Prop := fst a <= fst b.
Definition value_lt (a b : Sample) : Prop := snd a < snd b.

(** Years ascending, with repetitions allowed. *)
Definition sorted_by_year (s : Series) : Prop := Sorted year_le s.

(** Years strictly ascending. *)
Definition strictly_sorted_by_year (s : Series) : Prop := Sorted year_lt s.

(** Values strictly increasing. *)
Definition strictly_increasing_values (s : Series) : Prop := Sorted value_lt s.

(** ** The interpolation, in rationals *)

(** The expression of the script, on the sample [a] at the bisection index and
    the sample [b] before it: [t = (year - a[0]) / (b[0] - a[0])] and
    [a[1] * (1 - t) + b[1] * t]. *)
Definition lerp_code (a b : Sample) (year : Q) : Q :=
  let t := (year - fst a) / (fst b - fst a) in
  snd a * (1 - t) + snd b * t.

(** The formula of the specification, with the fraction measured from the
    earlier sample [b]: [t = (year - b.year) / (a.year - b.year)] and
    [b.value * (1 - t) + a.value * t]. *)
Definition lerp_spec (a b : Sample) (year : Q) : Q :=
  let t := (year - fst b) / (fst a - fst b) in
  snd b * (1 - t) + snd a * t.

(** The population of a snapshot is a number other than NaN. *)
Definition population_defined (s : Snapshot.t) : Prop :=
  is_nan (Snapshot.population s) = false.

(** The invariant of the data model: the three series of a nation are
    non-empty. *)
Definition nation_nonempty (d : Nation.t) : Prop :=
  Nation.income d <> [] /\ Nation.population d <> [] /\
  Nation.lifeExpectancy d <> [].

(** ** Sample data *)

Definition ex_series : Series := [(1800, 10); (1900, 20); (2000, 40)].

(** A series whose last year is repeated. *)
Definition dup_series : Series := [(1800, 10); (1900, 20); (1900, 30)].

Definition ex_nations : list Nation.t :=
  [ {| Nation.name := "A"; Nation.region := "North";
       Nation.income := [(1800, 100); (1900, 300)];
       Nation.population := ex_series;
       Nation.lifeExpectancy := [(1800, 30)] |};
    {| Nation.name := "B"; Nation.region := "South";
       Nation.income := [(1850, 200)];
       Nation.population := [(1800, 50); (2000, 90)];
       Nation.lifeExpectancy := [(1800, 40); (2000, 60)] |} ].

(** Two nations, the first with the repeated year in its population. *)
Definition dup_nations : list Nation.t :=
  [ {| Nation.name := "A"; Nation.region := "North";
       Nation.income := [(1800, 100)];
       Nation.population := dup_series;
       Nation.lifeExpectancy := [(1800, 30)] |};
    {| Nation.name := "B"; Nation.region := "South";
       Nation.income := [(1800, 200)];
       Nation.population := [(1800, 5)];
       Nation.lifeExpectancy := [(1800, 40)] |} ].

(** A frame with an infinite population. *)
Definition ex_frame : list Snapshot.t :=
  [ {| Snapshot.name := "A"; Snapshot.region := "North";
       Snapshot.income := Fin 100; Snapshot.population := Fin 10;
       Snapshot.lifeExpectancy := Fin 30 |};
    {| Snapshot.name := "B"; Snapshot.region := "South";
       Snapshot.income := Fin 200; Snapshot.population := PInf;
       Snapshot.lifeExpectancy := Fin 40 |};
    {| Snapshot.name := "C"; Snapshot.region := "South";
       Snapshot.income := Fin 300; Snapshot.population := Fin 20;
       Snapshot.lifeExpectancy := Fin 50 |} ].

(** [function color(d) { return d.region; }] and
    [function key(d) { return d.name; }] *)
Definition color (d : Snapshot.t) : string := Snapshot.region d.
Definition key (d : Snapshot.t) : string := Snapshot.name d.

(** ** The legend

    [var regionSet = new Set();
     for (var i = 0; i < nations.length; i++) regionSet.add(nations[i].region);
     var regions = Array.from(regionSet);]
    A set of the host keeps its elements in the order of their first
    insertion, and [Array.from] lists them in that order: the set is the list
    of its elements. *)

Definition set_has (s : list string) (v : string) : bool :=
  existsb (String.eqb v) s.

(** [regionSet.add(v)] *)
Definition set_add (s : list string) (v : string) : list string :=
  if set_has s v then s else s ++ [v].

Definition regions (nations : list Nation.t) : list string :=
  fold_left (fun regionSet d => set_add regionSet (Nation.region d)) nations [].

(** ** The sweep and the year label

    [d3.interpolateNumber(a, b)] is documented as the function
    [t => a * (1 - t) + b * t]; [tweenYear] hands [year(t)] to
    [displayYear], which writes [Math.round(year)] in the label.
    [Math.round] takes the nearest integer, the upper one at a tie. *)

Definition interpolateNumber (a b t : Q) : Q := a * (1 - t) + b * t.

(** The year that [tweenYear]'s function displays at the time [t]. *)
Definition tweenYear (t : Q) : Q := interpolateNumber 1800 2009 t.

Definition Math_round (x : Q) : Z := Qfloor (x + (1 # 2)).

(** The text of the label after [displayYear(year)]. *)
Definition year_label (year : Q) : Z := Math_round year.

(** ** The planets: radii from diameters

    [var planetRadii = [];
     for (var i = 0; i < planetDiameters.length; i++) {
       var radius = planetDiameters[i] / 2; planetRadii[i] = radius; }]
    An array of the host may have holes and grows when an element is stored
    at or past its length: [None] is a hole. *)

(** [a[i] = v] *)
Definition array_store {A} (a : list (option A)) (i : nat) (v : A)
  : list (option A) :=
  if (i <? List.length a)%nat
  then firstn i a ++ Some v :: skipn (S i) a
  else a ++ repeat None (i - List.length a) ++ [Some v].

(** [n] more rounds of the loop, from the index [i]; an element read past
    the end would be [undefined], and [undefined / 2] is NaN. *)
Fixpoint planetRadii_loop (n i : nat) (planetDiameters : list Q)
         (planetRadii : list (option number)) : list (option number) :=
  match n with
  | O => planetRadii
  | S n' =>
      let radius :=
        match nth_error planetDiameters i with
        | Some d => ndiv (Fin d) (Fin 2)
        | None => NaN
        end in
      planetRadii_loop n' (S i) planetDiameters
                       (array_store planetRadii i radius)
  end.

Definition planetRadii_of (planetDiameters : list Q) : list (option number) :=
  planetRadii_loop (List.length planetDiameters) 0 planetDiameters [].

Definition planetDiameters : list Q :=
  [4879; 12104; 12756; 6792; 142984; 120536; 51118; 49528].

(** A series sorted by year that repeats a year inside. *)
Definition inner_dup_series : Series :=
  [(1800, 10); (1900, 20); (1900, 30); (2000, 40)].

(** Two snapshots, the second with the larger population. *)
Definition snap_small : Snapshot.t :=
  {| Snapshot.name := "A"; Snapshot.region := "North";
     Snapshot.income := Fin 100; Snapshot.population := Fin 10;
     Snapshot.lifeExpectancy := Fin 30 |}.

Definition snap_large : Snapshot.t :=
  {| Snapshot.name := "B"; Snapshot.region := "South";
     Snapshot.income := Fin 200; Snapshot.population := Fin 20;
     Snapshot.lifeExpectancy := Fin 40 |}.

(** The frame of [ex_nations] at 1950. *)
Definition ex_nations_frame : list Snapshot.t :=
  Eval vm_compute in
    match interpolateData ex_nations 1950 with
    | Some frame => frame
    | None => []
    end.

(** ** The script on binary64

    The numbers of the script are the doubles of IEEE 754.  This module
    repeats the bisector and [interpolateValues] on the binary64 format of
    the Standard Library's specification of floating-point arithmetic
    ([spec_float], precision 53, [emax] 1024): sums, differences, products
    and quotients round to nearest, ties to even, overflow to an infinity,
    and keep the sign of a zero.  Samples and the query year are doubles, as
    [JSON.parse] and the scales produce them. *)

Module Binary64.

Definition double : Type := spec_float.
Definition prec : Z := 53.
Definition emax : Z := 1024.

(** [x + y], [x - y], [x * y], [x / y] *)
Definition add : double -> double -> double := SFadd prec emax.
Definition sub : double -> double -> double := SFsub prec emax.
Definition mul : double -> double -> double := SFmul prec emax.
Definition div : double -> double -> double := SFdiv prec emax.

(** [x < y], [x > y], [x >= y], [x <= y], [x == y]: false as soon as one
    side is NaN. *)
Definition ltb : double -> double -> bool := SFltb.
Definition gtb (x y : double) : bool := SFltb y x.
Definition geb (x y : double) : bool := SFleb y x.
Definition leb : double -> double -> bool := SFleb.
Definition eqb : double -> double -> bool := SFeqb.

(** The double nearest to [m * 2^e], and the double of an integer literal. *)
Definition scaled (m e : Z) : double := binary_normalize prec emax m e false.
Definition of_Z (z : Z) : double := scaled z 0.

Definition is_finite (x : double) : bool :=
  match x with
  | S754_zero _ | S754_finite _ _ _ => true
  | S754_infinity _ | S754_nan => false
  end.

Definition is_zero (x : double) : bool :=
  match x with
  | S754_zero _ => true
  | _ => false
  end.

(** A double in the format's normal form (every double that the host
    holds is), finite. *)
Definition valid (x : double) : bool := valid_binary prec emax x && is_finite x.

(** The exact value of a finite double, a multiple of [2^-1074]:
    [scaled_int x * 2^-1074]. *)
Definition scaled_int (x : double) : Z :=
  match x with
  | S754_finite s m e => cond_Zopp s (Zpos m) * 2 ^ (e + 1074)
  | _ => 0
  end.

Definition denominator : positive := (2 ^ 1074)%positive.
Definition value (x : double) : Q := scaled_int x # denominator.

(** A sample [[year, value]] and a series of them. *)
Definition Sample : Type := (double * double)%type.
Definition Series : Type := list Sample.

Definition valid_sample (d : Sample) : Prop :=
  valid (fst d) = true /\ valid (snd d) = true.

(** The comparator of d3-array and the bisector's wrapping of the accessor
    [function(d) { return d[0]; }]. *)
Definition ascending (a b : double) : double :=
  if ltb a b then of_Z (-1)
  else if gtb a b then of_Z 1
  else if geb a b then of_Z 0
  else S754_nan.

Definition bisect_accessor (d : Sample) : double := fst d.

Definition bisect_compare (d : Sample) (x : double) : double :=
  ascending (bisect_accessor d) x.

(** [bisect.left(a, x, lo, hi)] *)
Equations? bisect_left (a : Series) (x : double) (lo hi : Z) : option Z
  by wf (Z.to_nat (hi - lo)) lt :=
  bisect_left a x lo hi with Z_lt_dec lo hi := {
    | right _ := Some lo
    | left _ with index a (Z.shiftr (lo + hi) 1) := {
        | None := None
        | Some d with ltb (bisect_compare d x) (of_Z 0) := {
            | true := bisect_left a x (Z.shiftr (lo + hi) 1 + 1) hi
            | false := bisect_left a x lo (Z.shiftr (lo + hi) 1) } } }.
Proof.
  all: rewrite Z.shiftr_div_pow2 by lia; change (2 ^ 1)%Z with 2%Z.
  - assert (lo <= (lo + hi) / 2)%Z by (apply Z.div_le_lower_bound; lia). lia.
  - assert ((lo + hi) / 2 < hi)%Z by (apply Z.div_lt_upper_bound; lia). lia.
Qed.

(** [t = (year - a[0]) / (b[0] - a[0])] *)
Definition interpolation_fraction (a b : Sample) (year : double) : double :=
  div (sub year (fst a)) (sub (fst b) (fst a)).

(** [function interpolateValues(values, year)] *)
Definition interpolateValues (values : Series) (year : double)
  : option double :=
  i <- bisect_left values year 0 (length_of values - 1) ;;
  a <- index values i ;;
  if (0 <? i)%Z then
    b <- index values (i - 1) ;;
    let t := interpolation_fraction a b year in
    Some (add (mul (snd a) (sub (of_Z 1) t)) (mul (snd b) t))
  else
    Some (snd a).

(** The expression of the script on two samples,
    [a[1] * (1 - t) + b[1] * t] with [t = (year - a[0]) / (b[0] - a[0])]. *)
Definition lerp_code (a b : Sample) (year : double) : double :=
  let t := div (sub year (fst a)) (sub (fst b) (fst a)) in
  add (mul (snd a) (sub (of_Z 1) t)) (mul (snd b) t).

(** The formula of the specification evaluated on doubles,
    [b.value * (1 - t) + a.value * t] with
    [t = (year - b.year) / (a.year - b.year)]. *)
Definition lerp_spec (a b : Sample) (year : double) : double :=
  let t := div (sub year (fst b)) (sub (fst a) (fst b)) in
  add (mul (snd b) (sub (of_Z 1) t)) (mul (snd a) t).

(** Years strictly ascending, values strictly increasing, by [<] on
    doubles. *)
Definition year_lt (a b : Sample) : Prop := ltb (fst a) (fst b) = true.
Definition value_lt (a b : Sample) : Prop := ltb (snd a) (snd b) = true.
Definition strictly_sorted_by_year (s : Series) : Prop := Sorted year_lt s.
Definition strictly_increasing_values (s : Series) : Prop := Sorted value_lt s.

(** The series of the worked example. *)
Definition ex_series : Series :=
  [(of_Z 1800, of_Z 10); (of_Z 1900, of_Z 20); (of_Z 2000, of_Z 40)].

(** A series that repeats its last year. *)
Definition dup_series : Series :=
  [(of_Z 1800, of_Z 10); (of_Z 1900, of_Z 20); (of_Z 1900, of_Z 30)].

(** A series whose last two values are equal. *)
Definition flat_series : Series :=
  [(of_Z 1800, of_Z 10); (of_Z 1900, of_Z 20); (of_Z 2000, of_Z 20)].

(** Two samples three years apart. *)
Definition thirds_series : Series := [(of_Z 0, of_Z 0); (of_Z 3, of_Z 1)].

(** Two samples seventy years apart with close values, and two query
    years between them: 1903.5 and 1903.5 + 2^-20. *)
Definition close_series : Series :=
  [(of_Z 1840, of_Z 418221713); (of_Z 1910, of_Z 418221715)].
Definition close_year1 : double := scaled 3807 (-1).
Definition close_year2 : double := scaled (3807 * 2 ^ 19 + 1) (-20).

(** Two samples a year apart whose values differ by one, and a query year
    2^-40 after the last one. *)
Definition near_series : Series :=
  [(of_Z 2007, of_Z 1000000000); (of_Z 2008, of_Z 1000000001)].
Definition near_year : double := scaled (2008 * 2 ^ 40 + 1) (-40).

End Binary64.

(** The exact reading of a series of doubles: the same samples, each double
    replaced by its exact value. *)
Definition exact_sample (d : Binary64.Sample) : Sample :=
  (Binary64.value (fst d), Binary64.value (snd d)).

Definition exact_series (s : Binary64.Series) : Series := map exact_sample s.

(** ** Facts on numbers *)

(** Closes the ordering of a series given by its samples. *)
Ltac sorted_samples :=
  repeat (constructor; try reflexivity).

Lemma nltb_Fin (p q : Q) : nltb (Fin p) (Fin q) = true <-> p < q.
Proof.
  simpl. rewrite Qlt_alt. destruct (p ?= q); split; congruence.
Qed.

Lemma nltb_Fin_false (p q : Q) : nltb (Fin p) (Fin q) = false <-> q <= p.
Proof.
  rewrite <- not_true_iff_false, nltb_Fin. split.
  - apply Qnot_lt_le.
  - apply Qle_not_lt.
Qed.

(** The test of the loop, [compare(a[mid], x) < 0], is [a[mid][0] < x]. *)
Lemma ascending_neg (a b : number) : nltb (ascending a b) (Fin 0) = nltb a b.
Proof.
  unfold ascending, ngtb.
  destruct (nltb a b); [reflexivity|].
  destruct (nltb b a); [reflexivity|].
  destruct (ngeb a b); reflexivity.
Qed.

Lemma bisect_test (d : Sample) (x : Q) :
  nltb (bisect_compare d (Fin x)) (Fin 0) = true <-> fst d < x.
Proof.
  unfold bisect_compare, bisect_accessor. rewrite ascending_neg. apply nltb_Fin.
Qed.

Lemma bisect_test_false (d : Sample) (x : Q) :
  nltb (bisect_compare d (Fin x)) (Fin 0) = false <-> x <= fst d.
Proof.
  unfold bisect_compare, bisect_accessor. rewrite ascending_neg.
  apply nltb_Fin_false.
Qed.

(** ** Facts on indexing *)

Lemma index_of_nat {A} (a : list A) (k : nat) :
  index a (Z.of_nat k) = nth_error a k.
Proof.
  unfold index. destruct (Z.ltb_spec (Z.of_nat k) 0); [lia|].
  now rewrite Nat2Z.id.
Qed.

Lemma index_in_range {A} (a : list A) (i : Z) :
  (0 <= i < length_of a)%Z -> exists d, index a i = Some d.
Proof.
  unfold index, length_of. intros H.
  destruct (Z.ltb_spec i 0); [lia|].
  destruct (nth_error a (Z.to_nat i)) eqn:E; [eauto|].
  apply nth_error_None in E. lia.
Qed.

Lemma index_nth {A} (a : list A) (i : Z) (d : A) :
  index a i = Some d -> nth_error a (Z.to_nat i) = Some d.
Proof.
  unfold index. destruct (Z.ltb_spec i 0); [discriminate | auto].
Qed.

(** ** The bisector returns, and where *)

Lemma shiftr1_bounds (lo hi : Z) :
  (lo < hi)%Z -> (lo <= Z.shiftr (lo + hi) 1 < hi)%Z.
Proof.
  intros H. rewrite Z.shiftr_div_pow2 by lia. change (2 ^ 1)%Z with 2%Z.
  split.
  - apply Z.div_le_lower_bound; lia.
  - apply Z.div_lt_upper_bound; lia.
Qed.

(** On a window inside the array the loop reads only defined elements and
    returns an index [r] of the window; the element before [r], when the
    loop moved [lo], compared below [x], and the element at [r], when the
    loop moved [hi], did not.  Nothing is assumed on the order of [a]. *)
Lemma bisect_left_post (a : Series) (x : number) (lo hi : Z) :
  (0 <= lo)%Z -> (hi <= length_of a)%Z ->
  exists r, bisect_left a x lo hi = Some r /\
    (lo <= r)%Z /\ (r <= Z.max lo hi)%Z /\
    ((lo < r)%Z -> exists d, index a (r - 1) = Some d /\
                             nltb (bisect_compare d x) (Fin 0) = true) /\
    ((r < hi)%Z -> exists d, index a r = Some d /\
                             nltb (bisect_compare d x) (Fin 0) = false).
Proof.
  funelim (bisect_left a x lo hi); intros Hlo Hhi.
  - exists lo. repeat split; try lia.
  - match goal with E : index _ _ = None |- _ => rename E into Hmid end.
    pose proof (shiftr1_bounds _ _ l) as Hb.
    destruct (index_in_range a (Z.shiftr (lo + hi) 1)) as [d Hd]; [lia|].
    congruence.
  - match goal with E : index _ _ = Some _ |- _ => rename E into Hmid end.
    match goal with E : nltb _ _ = true |- _ => rename E into Htest end.
    pose proof (shiftr1_bounds _ _ l) as Hb.
    match goal with IH : (0 <= _)%Z -> _ |- _ =>
      destruct IH as (r & Hr & H1 & H2 & H3 & H4); [lia | lia |] end.
    exists r. repeat split; try lia; auto.
    intros _. destruct (Z.eq_dec r (Z.shiftr (lo + hi) 1 + 1)) as [->|Hne].
    + exists d. split; [|exact Htest].
      now replace (Z.shiftr (lo + hi) 1 + 1 - 1)%Z with (Z.shiftr (lo + hi) 1) by lia.
    + apply H3. lia.
  - match goal with E : index _ _ = Some _ |- _ => rename E into Hmid end.
    match goal with E : nltb _ _ = false |- _ => rename E into Htest end.
    pose proof (shiftr1_bounds _ _ l) as Hb.
    match goal with IH : (0 <= _)%Z -> _ |- _ =>
      destruct IH as (r & Hr & H1 & H2 & H3 & H4); [lia | lia |] end.
    exists r. repeat split; try lia; auto.
    intros _. destruct (Z.eq_dec r (Z.shiftr (lo + hi) 1)) as [->|Hne].
    + exists d. split; [exact Hmid | exact Htest].
    + apply H4. lia.
Qed.

Section SortedIndex.
Variable A : Type.
Variable R : A -> A -> Prop.
Hypothesis R_trans : forall x y z, R x y -> R y z -> R x z.

Lemma StronglySorted_nth (l : list A) :
  StronglySorted R l ->
  forall i j a b, (i < j)%nat ->
    nth_error l i = Some a -> nth_error l j = Some b -> R a b.
Proof.
  induction 1 as [|x l Hl IH Hx]; intros i j a b Hij Ha Hb.
  - destruct i; discriminate.
  - destruct j as [|j]; [lia|]. simpl in Hb.
    destruct i as [|i]; simpl in Ha.
    + injection Ha as <-. rewrite Forall_forall in Hx.
      apply Hx. eapply nth_error_In; eauto.
    + apply (IH i j); auto. lia.
Qed.

Lemma Sorted_nth (l : list A) :
  Sorted R l ->
  forall i j a b, (i < j)%nat ->
    nth_error l i = Some a -> nth_error l j = Some b -> R a b.
Proof.
  intros H. apply StronglySorted_nth.
  apply Sorted_StronglySorted; auto.
Qed.
End SortedIndex.

Lemma year_lt_trans (x y z : Sample) : year_lt x y -> year_lt y z -> year_lt x z.
Proof. unfold year_lt. apply Qlt_trans. Qed.

Lemma year_le_trans (x y z : Sample) : year_le x y -> year_le y z -> year_le x z.
Proof. unfold year_le. apply Qle_trans. Qed.

Lemma strictly_sorted_lt (s : Series) (i j : nat) (a b : Sample) :
  strictly_sorted_by_year s -> (i < j)%nat ->
  nth_error s i = Some a -> nth_error s j = Some b -> fst a < fst b.
Proof.
  intros H. apply (Sorted_nth _ _ year_lt_trans _ H).
Qed.

Lemma sorted_le (s : Series) (i j : nat) (a b : Sample) :
  sorted_by_year s -> (i <= j)%nat ->
  nth_error s i = Some a -> nth_error s j = Some b -> fst a <= fst b.
Proof.
  intros H Hij Ha Hb. destruct (Nat.eq_dec i j) as [->|Hne].
  - rewrite Ha in Hb. injection Hb as <-. apply Qle_refl.
  - apply (Sorted_nth _ _ year_le_trans _ H) with (i := i) (j := j); auto. lia.
Qed.

Lemma strictly_sorted_sorted (s : Series) :
  strictly_sorted_by_year s -> sorted_by_year s.
Proof.
  unfold strictly_sorted_by_year, sorted_by_year.
  induction 1 as [|a l Hl IH Ha]; constructor; auto.
  destruct Ha; constructor. now apply Qlt_le_weak.
Qed.

(** In a strictly ascending series the position decides the order of years. *)
Lemma strictly_sorted_index_lt (s : Series) (i j : nat) (a b : Sample) :
  strictly_sorted_by_year s ->
  nth_error s i = Some a -> nth_error s j = Some b ->
  fst a < fst b -> (i < j)%nat.
Proof.
  intros H Ha Hb Hlt. destruct (Nat.lt_ge_cases i j) as [|Hge]; auto.
  exfalso. apply (Qlt_not_le _ _ Hlt).
  apply (sorted_le s j i _ _ (strictly_sorted_sorted s H)); auto.
Qed.

Lemma lerp_code_spec (a b : Sample) (year : Q) :
  ~ fst a == fst b -> lerp_code a b year == lerp_spec a b year.
Proof.
  intros H. unfold lerp_code, lerp_spec. cbv zeta. field.
  split; intros E; apply H; lra.
Qed.

(** With distinct years no special value arises, and the script computes
    [lerp_code]. *)
Lemma interpolation_fraction_finite (a b : Sample) (year : Q) :
  ~ fst a == fst b ->
  interpolation_fraction a b year = Fin ((year - fst a) / (fst b - fst a)).
Proof.
  intros H. unfold interpolation_fraction. simpl.
  destruct (Qeq_bool (fst b + - fst a) 0) eqn:E; [|reflexivity].
  apply Qeq_bool_eq in E. exfalso. apply H. lra.
Qed.

(** What [interpolateValues] does once the bisection index is known. *)
Lemma interpolateValues_first (values : Series) (year : Q) (a : Sample) :
  bisect_left values (Fin year) 0 (length_of values - 1) = Some 0%Z ->
  index values 0 = Some a ->
  interpolateValues values year = Some (Fin (snd a)).
Proof.
  intros Hi Ha. unfold interpolateValues. rewrite Hi. simpl. rewrite Ha.
  reflexivity.
Qed.

Lemma interpolateValues_interior (values : Series) (year : Q) (i : Z)
      (a b : Sample) :
  bisect_left values (Fin year) 0 (length_of values - 1) = Some i ->
  (0 < i)%Z ->
  index values i = Some a -> index values (i - 1) = Some b ->
  ~ fst a == fst b ->
  interpolateValues values year = Some (Fin (lerp_code a b year)).
Proof.
  intros Hi Hpos Ha Hb Hne. unfold interpolateValues. rewrite Hi. simpl.
  rewrite Ha. simpl. destruct (Z.ltb_spec 0 i); [|lia].
  rewrite Hb. simpl. rewrite interpolation_fraction_finite by exact Hne.
  reflexivity.
Qed.

(** The bisection of a non-empty series for a year. *)
Lemma bisect_year (values : Series) (year : Q) :
  values <> [] ->
  exists i a,
    bisect_left values (Fin year) 0 (length_of values - 1) = Some i /\
    (0 <= i <= length_of values - 1)%Z /\
    index values i = Some a /\
    ((0 < i)%Z -> exists b, index values (i - 1) = Some b /\ fst b < year) /\
    ((i < length_of values - 1)%Z -> year <= fst a).
Proof.
  intros Hne.
  assert (1 <= length_of values)%Z as Hlen.
  { unfold length_of. destruct values; [congruence | simpl; lia]. }
  destruct (bisect_left_post values (Fin year) 0 (length_of values - 1)) as (r & Hr & H1 & H2 & H3 & H4);
    [lia | lia |].
  destruct (index_in_range values r) as [a Ha]; [lia|].
  exists r, a. repeat split; auto; try lia.
  - intros Hpos. destruct (H3 Hpos) as (d & Hd & Ht).
    exists d. split; [exact Hd|]. now apply bisect_test.
  - intros Hlt. destruct (H4 Hlt) as (d & Hd & Ht).
    rewrite Ha in Hd. injection Hd as <-. now apply bisect_test_false.
Qed.

(** ** Where the bisection lands in an ordered series *)

Lemma nth_error_nonempty {A} (l : list A) (k : nat) (d : A) :
  nth_error l k = Some d -> l <> [].
Proof. destruct l; [destruct k; discriminate | congruence]. Qed.

Lemma nth_error_length_of {A} (l : list A) (k : nat) (d : A) :
  nth_error l k = Some d -> (Z.of_nat k < length_of l)%Z.
Proof.
  intros H. unfold length_of.
  assert (k < List.length l)%nat by (apply nth_error_Some; congruence). lia.
Qed.

(** A year at or before the first sample: index 0. *)
Lemma bisect_before_first (values : Series) (v0 : Sample) (y : Q) :
  sorted_by_year values -> nth_error values 0 = Some v0 -> y <= fst v0 ->
  bisect_left values (Fin y) 0 (length_of values - 1) = Some 0%Z.
Proof.
  intros Hs H0 Hy.
  destruct (bisect_year values y (nth_error_nonempty _ _ _ H0))
    as (i & a & Hi & Hrange & Ha & Hleft & _).
  rewrite Hi. f_equal.
  destruct (Z_lt_le_dec 0 i) as [Hpos|]; [|lia]. exfalso.
  destruct (Hleft Hpos) as (b & Hb & Hlt). apply index_nth in Hb.
  assert (fst v0 <= fst b)
    by (apply (sorted_le values 0 (Z.to_nat (i - 1)) _ _ Hs); auto; lia).
  lra.
Qed.

(** The year of the sample at [k]: index [k], the last one included. *)
Lemma bisect_exact (values : Series) (k : nat) (d : Sample) (y : Q) :
  strictly_sorted_by_year values -> nth_error values k = Some d ->
  y == fst d ->
  bisect_left values (Fin y) 0 (length_of values - 1) = Some (Z.of_nat k).
Proof.
  intros Hs Hk Hy.
  destruct (bisect_year values y (nth_error_nonempty _ _ _ Hk))
    as (i & a & Hi & Hrange & Ha & Hleft & Hright).
  rewrite Hi. f_equal.
  pose proof (nth_error_length_of _ _ _ Hk) as Hklen.
  apply index_nth in Ha.
  assert (i <= Z.of_nat k)%Z.
  { destruct (Z_lt_le_dec 0 i) as [Hpos|]; [|lia].
    destruct (Hleft Hpos) as (b & Hb & Hlt). apply index_nth in Hb.
    assert (Z.to_nat (i - 1) < k)%nat
      by (apply (strictly_sorted_index_lt _ _ _ _ _ Hs Hb Hk); lra).
    lia. }
  assert (Z.of_nat k <= i)%Z.
  { destruct (Z_lt_le_dec i (length_of values - 1)) as [Hlt|]; [|lia].
    specialize (Hright Hlt).
    destruct (Z_lt_le_dec i (Z.of_nat k)); [|lia]. exfalso.
    assert (fst a < fst d)
      by (apply (strictly_sorted_lt values (Z.to_nat i) k _ _ Hs); auto; lia).
    lra. }
  lia.
Qed.

(** A year after the sample at [k] and up to the next one: index [k + 1]. *)
Lemma bisect_between (values : Series) (k : nat) (s1 s2 : Sample) (y : Q) :
  strictly_sorted_by_year values ->
  nth_error values k = Some s1 -> nth_error values (S k) = Some s2 ->
  fst s1 < y -> y <= fst s2 ->
  bisect_left values (Fin y) 0 (length_of values - 1) = Some (Z.of_nat (S k)).
Proof.
  intros Hs H1 H2 Hlo Hhi.
  destruct (bisect_year values y (nth_error_nonempty _ _ _ H1))
    as (i & a & Hi & Hrange & Ha & Hleft & Hright).
  rewrite Hi. f_equal.
  pose proof (nth_error_length_of _ _ _ H2) as Hklen.
  apply index_nth in Ha.
  assert (i <= Z.of_nat (S k))%Z.
  { destruct (Z_lt_le_dec 0 i) as [Hpos|]; [|lia].
    destruct (Hleft Hpos) as (b & Hb & Hlt). apply index_nth in Hb.
    assert (Z.to_nat (i - 1) < S k)%nat
      by (apply (strictly_sorted_index_lt _ _ _ _ _ Hs Hb H2); lra).
    lia. }
  assert (Z.of_nat (S k) <= i)%Z.
  { destruct (Z_lt_le_dec i (length_of values - 1)) as [Hlt|]; [|lia].
    specialize (Hright Hlt).
    assert (k < Z.to_nat i)%nat
      by (apply (strictly_sorted_index_lt _ _ _ _ _ Hs H1 Ha); lra).
    lia. }
  lia.
Qed.

(** ** Values of the two formulas at the ends *)

Lemma lerp_code_at_a (a b : Sample) (y : Q) :
  ~ fst a == fst b -> y == fst a -> lerp_code a b y == snd a.
Proof.
  intros Hne Hy. unfold lerp_code. cbv zeta.
  setoid_replace (y - fst a) with 0 by lra.
  field. intros E. apply Hne. lra.
Qed.

Lemma lerp_spec_at_b (a b : Sample) (y : Q) :
  ~ fst a == fst b -> y == fst b -> lerp_spec a b y == snd b.
Proof.
  intros Hne Hy. unfold lerp_spec. cbv zeta.
  setoid_replace (y - fst b) with 0 by lra.
  field. intros E. apply Hne. lra.
Qed.

(** The formula as the earlier value plus the slope times the distance. *)
Lemma lerp_spec_slope (a b : Sample) (y : Q) :
  ~ fst a == fst b ->
  lerp_spec a b y == snd b + (snd a - snd b) * ((y - fst b) * / (fst a - fst b)).
Proof.
  intros Hne. unfold lerp_spec. cbv zeta. field. intros E. apply Hne. lra.
Qed.

Lemma lerp_spec_monotone (a b : Sample) (y1 y2 : Q) :
  fst b < fst a -> snd b <= snd a -> y1 <= y2 ->
  lerp_spec a b y1 <= lerp_spec a b y2.
Proof.
  intros Hy Hv H12.
  assert (~ fst a == fst b) as Hne by lra.
  rewrite (lerp_spec_slope a b y1 Hne), (lerp_spec_slope a b y2 Hne).
  assert (0 <= / (fst a - fst b)) as Hinv by (apply Qinv_le_0_compat; lra).
  assert ((y1 - fst b) * / (fst a - fst b) <= (y2 - fst b) * / (fst a - fst b))
    as Ht by (apply Qmult_le_compat_r; [lra | exact Hinv]).
  assert (0 <= (snd a - snd b) *
               ((y2 - fst b) * / (fst a - fst b) - (y1 - fst b) * / (fst a - fst b)))
    by (apply Qmult_le_0_compat; lra).
  lra.
Qed.

(** ** The value on a segment

    Between two consecutive samples of a strictly ascending series, ends
    included, [interpolateValues] is the line through the two samples. *)
Lemma interpolateValues_segment (values : Series) (k : nat) (s1 s2 : Sample)
      (y : Q) :
  strictly_sorted_by_year values ->
  nth_error values k = Some s1 -> nth_error values (S k) = Some s2 ->
  fst s1 <= y -> y <= fst s2 ->
  exists q, interpolateValues values y = Some (Fin q) /\
            q == lerp_spec s2 s1 y.
Proof.
  intros Hs H1 H2 Hlo Hhi.
  assert (fst s1 < fst s2) as H12
    by (apply (strictly_sorted_lt values k (S k) _ _ Hs); auto).
  assert (~ fst s2 == fst s1) as Hne by lra.
  destruct (Qlt_le_dec (fst s1) y) as [Hlt|Hge].
  - pose proof (bisect_between _ _ _ _ _ Hs H1 H2 Hlt Hhi) as Hi.
    exists (lerp_code s2 s1 y). split.
    + apply interpolateValues_interior with (i := Z.of_nat (S k)); auto.
      * lia.
      * now rewrite index_of_nat.
      * replace (Z.of_nat (S k) - 1)%Z with (Z.of_nat k) by lia.
        now rewrite index_of_nat.
    + now apply lerp_code_spec.
  - assert (y == fst s1) as Hy by lra.
    pose proof (bisect_exact _ _ _ _ Hs H1 Hy) as Hi.
    pose proof (lerp_spec_at_b _ _ _ Hne Hy) as Hend.
    destruct k as [|k].
    + exists (snd s1). split; [|now symmetry].
      apply interpolateValues_first; auto.
    + destruct (nth_error values k) as [s0|] eqn:H0.
      2:{ apply nth_error_None in H0.
          assert (S k < List.length values)%nat
            by (apply nth_error_Some; congruence). lia. }
      assert (fst s0 < fst s1) as H01
        by (apply (strictly_sorted_lt values k (S k) _ _ Hs); auto).
      exists (lerp_code s1 s0 y). split.
      * apply interpolateValues_interior with (i := Z.of_nat (S k)); auto.
        -- lia.
        -- now rewrite index_of_nat.
        -- replace (Z.of_nat (S k) - 1)%Z with (Z.of_nat k) by lia.
           now rewrite index_of_nat.
        -- lra.
      * rewrite Hend. apply lerp_code_at_a; [lra | exact Hy].
Qed.

(** ** The interpolator *)

(** C2.  Clamping before the first sample: in a non-empty series sorted
    ascending by year, a query year at or before the first sample's year
    returns the first sample's value unchanged. *)
Theorem clamp_before_first (values : Series) (v0 : Sample) (year : Q) :
  sorted_by_year values ->
  nth_error values 0 = Some v0 ->
  year <= fst v0 ->
  interpolateValues values year = Some (Fin (snd v0)).
Proof.
  intros Hs H0 Hy. apply interpolateValues_first.
  - now apply bisect_before_first with (v0 := v0).
  - exact H0.
Qed.

Lemma clamp_before_first_witness :
  interpolateValues ex_series 1700 = Some (Fin (snd (1800, 10))).
Proof.
  apply (clamp_before_first ex_series (1800, 10) 1700).
  - unfold ex_series. sorted_samples; discriminate.
  - reflexivity.
  - simpl. lra.
Defined.



Lemma value_lt_trans (x y z : Sample) :
  value_lt x y -> value_lt y z -> value_lt x z.
Proof. unfold value_lt. apply Qlt_trans. Qed.

(** Monotonicity between samples in exact arithmetic: in a series with
    strictly ascending years and strictly increasing values, for two query
    years [y1 <= y2] between the same two consecutive samples, the value
    of the script's expression computed without rounding at [y1] is at
    most the one at [y2]. *)
Lemma monotone_between_samples (values : Series) (k : nat) (s1 s2 : Sample)
        (y1 y2 : Q) :
  strictly_sorted_by_year values ->
  strictly_increasing_values values ->
  nth_error values k = Some s1 -> nth_error values (S k) = Some s2 ->
  fst s1 <= y1 -> y1 <= y2 -> y2 <= fst s2 ->
  exists q1 q2,
    interpolateValues values y1 = Some (Fin q1) /\
    interpolateValues values y2 = Some (Fin q2) /\
    q1 <= q2.
Proof.
  intros Hs Hv H1 H2 Hlo H12 Hhi.
  assert (fst s1 < fst s2) as Hy
    by (apply (strictly_sorted_lt values k (S k) _ _ Hs); auto).
  assert (snd s1 < snd s2) as Hval
    by (apply (Sorted_nth _ _ value_lt_trans _ Hv k (S k)); auto).
  destruct (interpolateValues_segment values k s1 s2 y1 Hs H1 H2)
    as (q1 & Hq1 & E1); [lra | lra |].
  destruct (interpolateValues_segment values k s1 s2 y2 Hs H1 H2)
    as (q2 & Hq2 & E2); [lra | lra |].
  exists q1, q2. repeat split; auto.
  rewrite E1, E2. apply lerp_spec_monotone; lra.
Qed.

(** C9.  Worked example: on [[1800, 10], [1900, 20], [2000, 40]] the query
    year 1950 lands on index 2, between the samples of 1900 and 2000, and
    the returned number is 30. *)
Theorem worked_example_1950 :
  bisect_left ex_series (Fin 1950) 0 (length_of ex_series - 1) = Some 2%Z /\
  exists q, interpolateValues ex_series 1950 = Some (Fin q) /\
            q == 30 /\ Qred q = 30.
Proof.
  split; [vm_compute; reflexivity|].
  eexists. split; [vm_compute; reflexivity|].
  split; reflexivity.
Qed.

(** C10.  Index safety: on a non-empty series, for every query year, the
    bisection reads only defined elements and returns an index [i] with
    [0 <= i <= length - 1]; [values[i]] is defined, [values[i-1]] is
    defined when [i > 0], and [interpolateValues] returns a number: the
    TypeError of an undefined element is unreachable. *)
Theorem index_safety (values : Series) (year : Q) :
  values <> [] ->
  exists i a r,
    bisect_left values (Fin year) 0 (length_of values - 1) = Some i /\
    (0 <= i <= length_of values - 1)%Z /\
    index values i = Some a /\
    ((0 < i)%Z -> exists b, index values (i - 1) = Some b) /\
    interpolateValues values year = Some r.
Proof.
  intros Hne.
  destruct (bisect_year values year Hne)
    as (i & a & Hi & Hrange & Ha & Hleft & _).
  unfold interpolateValues. rewrite Hi. simpl. rewrite Ha. simpl.
  destruct (Z.ltb_spec 0 i) as [Hpos|Hle].
  - destruct (Hleft Hpos) as (b & Hb & _). rewrite Hb. simpl.
    eexists i, a, _. repeat split; eauto; lia.
  - eexists i, a, _. repeat split; eauto; try lia.
Qed.

Lemma index_safety_witness :
  exists i a r,
    bisect_left dup_series (Fin 1950) 0 (length_of dup_series - 1) = Some i /\
    (0 <= i <= length_of dup_series - 1)%Z /\
    index dup_series i = Some a /\
    ((0 < i)%Z -> exists b, index dup_series (i - 1) = Some b) /\
    interpolateValues dup_series 1950 = Some r.
Proof.
  apply (index_safety dup_series 1950). discriminate.
Defined.

(** ** The frame *)

Lemma interpolateValues_returns (values : Series) (year : Q) :
  values <> [] -> exists r, interpolateValues values year = Some r.
Proof.
  intros Hne.
  destruct (bisect_year values year Hne)
    as (i & a & Hi & Hrange & Ha & Hleft & _).
  unfold interpolateValues. rewrite Hi. simpl. rewrite Ha. simpl.
  destruct (Z.ltb_spec 0 i) as [Hpos|Hle]; [|eauto].
  destruct (Hleft Hpos) as (b & Hb & _). rewrite Hb. simpl. eauto.
Qed.

(** C7.  Frame composition: for nations whose three series are non-empty
    and every query year, [interpolateData] returns one snapshot per
    nation, in the order of the dataset; the snapshot at position [k] has
    the name and region of the nation at [k], and its three numbers are the
    results of [interpolateValues] on that nation's series. *)
Theorem frame_shape_and_order (nations : list Nation.t) (year : Q) :
  Forall nation_nonempty nations ->
  exists frame,
    interpolateData nations year = Some frame /\
    List.length frame = List.length nations /\
    forall k d, nth_error nations k = Some d ->
      exists s, nth_error frame k = Some s /\
        Snapshot.name s = Nation.name d /\
        Snapshot.region s = Nation.region d /\
        interpolateValues (Nation.income d) year = Some (Snapshot.income s) /\
        interpolateValues (Nation.population d) year
          = Some (Snapshot.population s) /\
        interpolateValues (Nation.lifeExpectancy d) year
          = Some (Snapshot.lifeExpectancy s).
Proof.
  induction 1 as [|d nations (Hinc & Hpop & Hlife) Hall IH].
  - exists []. repeat split; auto. intros [|k] d Hk; discriminate.
  - destruct IH as (frame & Hframe & Hlen & Hnth).
    destruct (interpolateValues_returns _ year Hinc) as [inc Einc].
    destruct (interpolateValues_returns _ year Hpop) as [pop Epop].
    destruct (interpolateValues_returns _ year Hlife) as [life Elife].
    unfold interpolateData in *. simpl.
    rewrite Einc, Epop, Elife. simpl. rewrite Hframe. simpl.
    eexists. split; [reflexivity|]. split; [simpl; congruence|].
    intros [|k] d' Hk; simpl in Hk.
    + injection Hk as <-. eexists. split; [reflexivity|]. simpl. auto.
    + simpl. now apply Hnth.
Qed.

Lemma frame_shape_and_order_witness :
  exists frame,
    interpolateData ex_nations 1950 = Some frame /\
    List.length frame = List.length ex_nations /\
    forall k d, nth_error ex_nations k = Some d ->
      exists s, nth_error frame k = Some s /\
        Snapshot.name s = Nation.name d /\
        Snapshot.region s = Nation.region d /\
        interpolateValues (Nation.income d) 1950 = Some (Snapshot.income s) /\
        interpolateValues (Nation.population d) 1950
          = Some (Snapshot.population s) /\
        interpolateValues (Nation.lifeExpectancy d) 1950
          = Some (Snapshot.lifeExpectancy s).
Proof.
  apply (frame_shape_and_order ex_nations 1950).
  repeat constructor; discriminate.
Defined.

(** ** The draw order *)

Lemma Sorted_adjacent {A} (R : A -> A -> Prop) (l : list A) :
  Sorted R l -> adjacent R l.
Proof.
  induction 1 as [|x l Hl IH Hx]; intros k a b Ha Hb.
  - destruct k; discriminate.
  - destruct k as [|k]; simpl in Ha, Hb.
    + injection Ha as <-. destruct Hx as [|y l' Hxy]; [discriminate|].
      simpl in Hb. injection Hb as <-. exact Hxy.
    + now apply (IH k).
Qed.

(** The insertion keeps the elements, whatever the comparator. *)
Lemma sort_insert_perm {A} (cmp : A -> A -> number) (x : A) (l : list A) :
  Permutation (x :: l) (sort_insert cmp x l).
Proof.
  induction l as [|y l IH]; cbn [sort_insert]; [reflexivity|].
  destruct (ngtb (SortCompare cmp x y) (Fin 0)); [|reflexivity].
  rewrite perm_swap. now constructor.
Qed.

Lemma array_sort_perm {A} (cmp : A -> A -> number) (l : list A) :
  Permutation l (array_sort cmp l).
Proof.
  induction l as [|x l IH]; simpl; [constructor|].
  rewrite <- sort_insert_perm. now constructor.
Qed.

Lemma nltb_ngeb (x y : number) : nltb x y = true -> ngeb y x = true.
Proof.
  destruct x as [p| | |], y as [q| | |]; simpl; try congruence.
  rewrite <- (Qcompare_antisym p q).
  destruct (p ?= q); simpl; congruence.
Qed.

Lemma not_nltb_ngeb (x y : number) :
  is_nan x = false -> is_nan y = false -> nltb x y = false -> ngeb x y = true.
Proof.
  destruct x, y; simpl; try congruence; intros _ _ ->; reflexivity.
Qed.

(** On populations that are not NaN, [order(a, b) > 0] is
    [population(a) < population(b)]. *)
Lemma order_test (a b : Snapshot.t) :
  is_nan (Snapshot.population a) = false ->
  is_nan (Snapshot.population b) = false ->
  ngtb (SortCompare order a b) (Fin 0)
  = nltb (Snapshot.population a) (Snapshot.population b).
Proof.
  unfold SortCompare, order, radius, ngtb.
  destruct (Snapshot.population a) as [p| | |],
           (Snapshot.population b) as [q| | |];
    simpl; try congruence; intros _ _.
  destruct (p ?= q) eqn:E.
  - apply Qeq_alt in E.
    destruct (0 ?= q + - p) eqn:F; try reflexivity.
    apply Qlt_alt in F. lra.
  - apply Qlt_alt in E.
    destruct (0 ?= q + - p) eqn:F; try reflexivity.
    + apply Qeq_alt in F. lra.
    + apply Qgt_alt in F. lra.
  - apply Qgt_alt in E.
    destruct (0 ?= q + - p) eqn:F; try reflexivity.
    apply Qlt_alt in F. lra.
Qed.

Lemma sort_insert_HdRel (y x : Snapshot.t) (l : list Snapshot.t) :
  population_ge y x -> HdRel population_ge y l ->
  HdRel population_ge y (sort_insert order x l).
Proof.
  intros Hyx Hy. destruct l as [|z l]; cbn [sort_insert]; [now constructor|].
  inversion Hy; subst.
  destruct (ngtb (SortCompare order x z) (Fin 0)); now constructor.
Qed.

Lemma sort_insert_sorted (x : Snapshot.t) (l : list Snapshot.t) :
  population_defined x -> Forall population_defined l ->
  Sorted population_ge l -> Sorted population_ge (sort_insert order x l).
Proof.
  intros Hx Hl Hs. induction Hs as [|y l Hs IH Hy]; cbn [sort_insert].
  - repeat constructor.
  - inversion Hl as [|? ? Hdy Hdl]; subst.
    rewrite (order_test x y Hx Hdy).
    destruct (nltb (Snapshot.population x) (Snapshot.population y)) eqn:E.
    + constructor; [now apply IH|].
      apply sort_insert_HdRel; [|exact Hy].
      now apply nltb_ngeb.
    + constructor; [now constructor|]. constructor.
      now apply not_nltb_ngeb.
Qed.

Lemma array_sort_sorted (l : list Snapshot.t) :
  Forall population_defined l -> Sorted population_ge (array_sort order l).
Proof.
  induction 1 as [|x l Hx Hl IH]; simpl; [constructor|].
  apply sort_insert_sorted; auto.
  now apply (Permutation_Forall (array_sort_perm order l)).
Qed.

(** C8, as the script has it.  Draw order: for snapshots whose populations
    are not NaN, the sort with the comparator [order] keeps the snapshots
    and leaves every two neighbours [(a, b)] with
    [population(a) >= population(b)]: larger marks come first. *)
Theorem draw_order_sorted (l : list Snapshot.t) :
  Forall population_defined l ->
  Permutation l (array_sort order l) /\
  adjacent population_ge (array_sort order l).
Proof.
  intros Hl. split.
  - apply array_sort_perm.
  - apply Sorted_adjacent. now apply array_sort_sorted.
Qed.

Lemma draw_order_sorted_witness :
  Permutation ex_frame (array_sort order ex_frame) /\
  adjacent population_ge (array_sort order ex_frame).
Proof.
  apply (draw_order_sorted ex_frame).
  repeat constructor.
Defined.

(** C8, as stated, fails: a population series that repeats its last year
    gives a NaN population past that year, and in the frame of two nations,
    sorted by [order] or arranged in any other way, the two neighbours do
    not satisfy [population(a) >= population(b)]. *)
Lemma draw_order_counterexample :
  exists frame,
    interpolateData dup_nations 1950 = Some frame /\
    ~ adjacent population_ge (array_sort order frame) /\
    (forall l', Permutation frame l' -> ~ adjacent population_ge l').
Proof.
  eexists. split; [vm_compute; reflexivity|].
  assert (forall l', Permutation
            [ {| Snapshot.name := "A"; Snapshot.region := "North";
                 Snapshot.income := Fin 100; Snapshot.population := NaN;
                 Snapshot.lifeExpectancy := Fin 30 |};
              {| Snapshot.name := "B"; Snapshot.region := "South";
                 Snapshot.income := Fin 200; Snapshot.population := Fin 5;
                 Snapshot.lifeExpectancy := Fin 40 |} ] l' ->
          ~ adjacent population_ge l') as Hall.
  { intros l' Hp Hadj. apply Permutation_length_2_inv in Hp.
    destruct Hp as [-> | ->];
      specialize (Hadj 0%nat _ _ eq_refl eq_refl); discriminate Hadj. }
  split; [|exact Hall].
  apply Hall. apply array_sort_perm.
Qed.

(** * Further properties of the script *)

(** ** Errors *)

Lemma bisect_left_empty_window (a : Series) (x : number) (lo hi : Z) :
  (0 <= lo)%Z -> (hi <= lo)%Z -> (hi <= length_of a)%Z ->
  bisect_left a x lo hi = Some lo.
Proof.
  intros Hlo Hhi Hlen.
  destruct (bisect_left_post a x lo hi Hlo Hlen) as (r & Hr & H1 & H2 & _).
  rewrite Hr. f_equal. lia.
Qed.

Lemma interpolateValues_empty (year : Q) : interpolateValues [] year = None.
Proof.
  unfold interpolateValues.
  rewrite bisect_left_empty_window by (unfold length_of; simpl; lia).
  reflexivity.
Qed.

(** [interpolateValues] throws on the empty series and on no other: on a
    series with a sample it returns a number for every year. *)
Theorem interpolateValues_throws_iff_empty (values : Series) (year : Q) :
  interpolateValues values year = None <-> values = [].
Proof.
  split.
  - intros E. destruct values as [|d values]; [reflexivity|].
    destruct (interpolateValues_returns (d :: values) year) as [r Hr];
      [discriminate | congruence].
  - intros ->. apply interpolateValues_empty.
Qed.

Lemma mapM_None {A B} (f : A -> option B) (l : list A) :
  mapM f l = None <-> Exists (fun a => f a = None) l.
Proof.
  induction l as [|a l IH]; simpl.
  - split; [discriminate | intros H; inversion H].
  - destruct (f a) as [b|] eqn:E; simpl.
    + destruct (mapM f l) as [bs|]; simpl.
      * split; [discriminate|]. intros H. inversion H; subst; [congruence|].
        apply IH in H1. discriminate.
      * split; [|reflexivity]. intros _. right. now apply IH.
    + split; [|reflexivity]. intros _. now left.
Qed.

Lemma Exists_equiv {A} (P P' : A -> Prop) (l : list A) :
  (forall a, P a <-> P' a) -> Exists P l <-> Exists P' l.
Proof.
  intros H. split; apply Exists_impl; intros a; apply H.
Qed.

(** [interpolateData] throws exactly when some nation of the dataset has an
    empty series; one such nation loses the whole frame. *)
Theorem interpolateData_throws_iff (nations : list Nation.t) (year : Q) :
  interpolateData nations year = None <->
  Exists (fun d => Nation.income d = [] \/ Nation.population d = [] \/
                   Nation.lifeExpectancy d = []) nations.
Proof.
  unfold interpolateData. rewrite mapM_None.
  apply Exists_equiv. intros d.
  destruct (Nation.income d) as [|i0 inc] eqn:Ei.
  { rewrite interpolateValues_empty. simpl. tauto. }
  destruct (interpolateValues_returns (i0 :: inc) year) as [ri ->];
    [discriminate|]. simpl.
  destruct (Nation.population d) as [|p0 pop] eqn:Ep.
  { rewrite interpolateValues_empty. simpl. tauto. }
  destruct (interpolateValues_returns (p0 :: pop) year) as [rp ->];
    [discriminate|]. simpl.
  destruct (Nation.lifeExpectancy d) as [|l0 life] eqn:El.
  { rewrite interpolateValues_empty. simpl. tauto. }
  destruct (interpolateValues_returns (l0 :: life) year) as [rl ->];
    [discriminate|]. simpl.
  split; [discriminate|]. intros [H|[H|H]]; discriminate.
Qed.

(** ** A series of one sample *)

(** With a single sample the year plays no part: the sample's value is
    returned for every year, before and after it. *)
Theorem single_sample_constant (d : Sample) (year : Q) :
  interpolateValues [d] year = Some (Fin (snd d)).
Proof.
  apply interpolateValues_first; [|reflexivity].
  apply bisect_left_empty_window; unfold length_of; simpl; lia.
Qed.

(** ** The bisection index in a sorted series *)

Lemma index_nonneg {A} (a : list A) (i : Z) (d : A) :
  index a i = Some d -> (0 <= i)%Z.
Proof.
  unfold index. destruct (Z.ltb_spec i 0); [discriminate | lia].
Qed.

(** In a series sorted by year the index that the bisection returns is the
    leftmost one, the last index left out, whose year is at or after the
    query year, and the last index when there is none: every sample before
    it is earlier than the query year, every sample from it on, up to the
    last but one, is not. *)
Theorem bisect_leftmost (values : Series) (year : Q) :
  sorted_by_year values -> values <> [] ->
  exists i,
    bisect_left values (Fin year) 0 (length_of values - 1) = Some i /\
    (0 <= i <= length_of values - 1)%Z /\
    (forall j d, (j < i)%Z -> index values j = Some d -> fst d < year) /\
    (forall j d, (i <= j < length_of values - 1)%Z ->
                 index values j = Some d -> year <= fst d).
Proof.
  intros Hs Hne.
  destruct (bisect_year values year Hne)
    as (i & a & Hi & Hrange & Ha & Hleft & Hright).
  exists i. repeat split; auto; try lia.
  - intros j d Hj Hd. pose proof (index_nonneg _ _ _ Hd) as Hj0.
    destruct Hleft as (b & Hb & Hlt); [lia|].
    apply index_nth in Hd. apply index_nth in Hb.
    assert (fst d <= fst b)
      by (apply (sorted_le values (Z.to_nat j) (Z.to_nat (i - 1)) _ _ Hs);
          auto; lia).
    lra.
  - intros j d [Hij Hj] Hd. specialize (Hright ltac:(lia)).
    apply index_nth in Hd. apply index_nth in Ha.
    assert (fst a <= fst d)
      by (apply (sorted_le values (Z.to_nat i) (Z.to_nat j) _ _ Hs);
          auto; lia).
    lra.
Qed.

Lemma bisect_leftmost_witness :
  exists i,
    bisect_left inner_dup_series (Fin 1900) 0 (length_of inner_dup_series - 1)
      = Some i /\
    (0 <= i <= length_of inner_dup_series - 1)%Z /\
    (forall j d, (j < i)%Z -> index inner_dup_series j = Some d ->
                 fst d < 1900) /\
    (forall j d, (i <= j < length_of inner_dup_series - 1)%Z ->
                 index inner_dup_series j = Some d -> 1900 <= fst d).
Proof.
  apply (bisect_leftmost inner_dup_series 1900).
  - unfold inner_dup_series. sorted_samples; discriminate.
  - discriminate.
Defined.

(** ** The comparator *)

(** [order] is a consistent comparator on populations that are not NaN:
    it is positive exactly when the first population is the smaller one,
    negative exactly when it is the larger one, and swapping the arguments
    changes the sign. *)
Theorem order_comparator (a b : Snapshot.t) :
  population_defined a -> population_defined b ->
  ngtb (order a b) (Fin 0)
    = nltb (Snapshot.population a) (Snapshot.population b) /\
  nltb (order a b) (Fin 0)
    = nltb (Snapshot.population b) (Snapshot.population a) /\
  num_eq (order b a) (nneg (order a b)).
Proof.
  unfold population_defined, order, radius, ngtb.
  destruct (Snapshot.population a) as [p| | |],
           (Snapshot.population b) as [q| | |];
    simpl; try congruence; intros _ _; repeat split; try reflexivity.
  - destruct (p ?= q) eqn:E.
    + apply Qeq_alt in E.
      destruct (0 ?= q + - p) eqn:F; try reflexivity.
      apply Qlt_alt in F. lra.
    + apply Qlt_alt in E.
      destruct (0 ?= q + - p) eqn:F; try reflexivity.
      * apply Qeq_alt in F. lra.
      * apply Qgt_alt in F. lra.
    + apply Qgt_alt in E.
      destruct (0 ?= q + - p) eqn:F; try reflexivity.
      apply Qlt_alt in F. lra.
  - destruct (q ?= p) eqn:E.
    + apply Qeq_alt in E.
      destruct (q + - p ?= 0) eqn:F; try reflexivity.
      apply Qlt_alt in F. lra.
    + apply Qlt_alt in E.
      destruct (q + - p ?= 0) eqn:F; try reflexivity.
      * apply Qeq_alt in F. lra.
      * apply Qgt_alt in F. lra.
    + apply Qgt_alt in E.
      destruct (q + - p ?= 0) eqn:F; try reflexivity.
      apply Qlt_alt in F. lra.
  - ring.
Qed.

Lemma order_comparator_witness :
  ngtb (order snap_small snap_large) (Fin 0)
    = nltb (Snapshot.population snap_small) (Snapshot.population snap_large) /\
  nltb (order snap_small snap_large) (Fin 0)
    = nltb (Snapshot.population snap_large) (Snapshot.population snap_small) /\
  num_eq (order snap_large snap_small) (nneg (order snap_small snap_large)).
Proof.
  apply (order_comparator snap_small snap_large); reflexivity.
Defined.

(** ** The regions of the legend *)

Lemma set_has_In (s : list string) (v : string) :
  set_has s v = true <-> In v s.
Proof.
  unfold set_has. rewrite existsb_exists. split.
  - intros (x & Hx & E). apply String.eqb_eq in E. now subst.
  - intros H. exists v. split; [exact H | apply String.eqb_refl].
Qed.

Lemma set_add_In (s : list string) (v r : string) :
  In r (set_add s v) <-> In r s \/ r = v.
Proof.
  unfold set_add. destruct (set_has s v) eqn:E.
  - apply set_has_In in E. split; [auto|]. intros [H| ->]; auto.
  - rewrite in_app_iff. simpl. intuition congruence.
Qed.

Lemma set_add_NoDup (s : list string) (v : string) :
  NoDup s -> NoDup (set_add s v).
Proof.
  intros Hs. unfold set_add. destruct (set_has s v) eqn:E; [exact Hs|].
  assert (~ In v s) as Hv
    by (intros H; apply set_has_In in H; congruence).
  apply NoDup_app; auto.
  - repeat constructor. intros [].
  - intros x Hx [<-|[]]. contradiction.
Qed.

Lemma regions_fold (nations : list Nation.t) (s : list string) :
  let s' := fold_left (fun regionSet d => set_add regionSet (Nation.region d))
                      nations s in
  (NoDup s -> NoDup s') /\
  (forall r, In r s' <->
             In r s \/ exists d, In d nations /\ Nation.region d = r) /\
  exists tail, s' = s ++ tail.
Proof.
  revert s. induction nations as [|d nations IH]; intros s; simpl.
  - repeat split; auto.
    + intros [H|(d & [] & _)]. exact H.
    + exists []. now rewrite app_nil_r.
  - destruct (IH (set_add s (Nation.region d))) as (Hnd & Hin & tail & Ht).
    simpl in *. repeat split.
    + intros Hs. now apply Hnd, set_add_NoDup.
    + intros H. apply Hin in H. destruct H as [H|(d' & Hd' & E)].
      * apply set_add_In in H. destruct H as [H| ->]; [now left|].
        right. exists d. auto.
      * right. exists d'. auto.
    + intros [H|(d' & [<-|Hd'] & E)]; apply Hin.
      * left. apply set_add_In. now left.
      * left. apply set_add_In. right. now symmetry.
      * right. exists d'. auto.
    + rewrite Ht. unfold set_add.
      destruct (set_has s (Nation.region d)).
      * now exists tail.
      * exists ([Nation.region d] ++ tail). now rewrite app_assoc.
Qed.

(** The legend lists every region of the dataset, once, and nothing else. *)
Theorem regions_exact (nations : list Nation.t) :
  NoDup (regions nations) /\
  forall r, In r (regions nations) <->
            exists d, In d nations /\ Nation.region d = r.
Proof.
  destruct (regions_fold nations []) as (Hnd & Hin & _).
  split; [apply Hnd; constructor|].
  intros r. unfold regions. rewrite Hin. simpl. tauto.
Qed.


(** ** The radii of the planets *)

Lemma planetRadii_loop_map (post pre : list Q) :
  planetRadii_loop (List.length post) (List.length pre) (pre ++ post)
                   (map (fun d => Some (Fin (d / 2))) pre)
  = map (fun d => Some (Fin (d / 2))) (pre ++ post).
Proof.
  revert pre. induction post as [|d post IH]; intros pre; simpl.
  - now rewrite app_nil_r.
  - rewrite nth_error_app2 by lia. rewrite Nat.sub_diag. simpl nth_error.
    unfold array_store. rewrite length_map, Nat.ltb_irrefl, Nat.sub_diag.
    simpl repeat. simpl app at 2.
    specialize (IH (pre ++ [d])).
    rewrite length_app, map_app, <- app_assoc in IH. simpl in IH.
    replace (List.length pre + 1)%nat with (S (List.length pre)) in IH by lia.
    exact IH.
Qed.

(** The loop fills [planetRadii] with the halves of the diameters, in the
    same order and with no hole: one radius per diameter. *)
Theorem planetRadii_halves (diameters : list Q) :
  planetRadii_of diameters = map (fun d => Some (Fin (d / 2))) diameters.
Proof.
  exact (planetRadii_loop_map diameters []).
Qed.

(** ** The sweep *)

(** During the sweep, for a time [t] from 0 to 1, the displayed year runs
    from 1800 to 2009 without going back, and the label shows an integer
    year of that range, at most half a year from the displayed one. *)
Theorem sweep_year_range (t : Q) :
  0 <= t -> t <= 1 ->
  1800 <= tweenYear t /\ tweenYear t <= 2009 /\
  (forall t', t <= t' -> tweenYear t <= tweenYear t') /\
  (1800 <= year_label (tweenYear t) <= 2009)%Z /\
  inject_Z (year_label (tweenYear t)) - (1 # 2) <= tweenYear t /\
  tweenYear t < inject_Z (year_label (tweenYear t)) + (1 # 2).
Proof.
  intros H0 H1. unfold tweenYear, interpolateNumber, year_label, Math_round.
  set (y := 1800 * (1 - t) + 2009 * t).
  assert (1800 <= y /\ y <= 2009) as [Hlo Hhi] by (unfold y; split; lra).
  repeat split; auto.
  - intros t' Ht. unfold y. lra.
  - change 1800%Z with (Qfloor (1800 + (1 # 2))).
    apply Qfloor_resp_le. lra.
  - change 2009%Z with (Qfloor (2009 + (1 # 2))).
    apply Qfloor_resp_le. lra.
  - pose proof (Qfloor_le (y + (1 # 2))). lra.
  - pose proof (Qlt_floor (y + (1 # 2))) as H.
    rewrite inject_Z_plus in H. change (inject_Z 1) with 1 in H. lra.
Qed.

Lemma sweep_year_range_witness :
  1800 <= tweenYear (1 # 2) /\ tweenYear (1 # 2) <= 2009 /\
  (forall t', (1 # 2) <= t' -> tweenYear (1 # 2) <= tweenYear t') /\
  (1800 <= year_label (tweenYear (1 # 2)) <= 2009)%Z /\
  inject_Z (year_label (tweenYear (1 # 2))) - (1 # 2) <= tweenYear (1 # 2) /\
  tweenYear (1 # 2) < inject_Z (year_label (tweenYear (1 # 2))) + (1 # 2).
Proof.
  apply (sweep_year_range (1 # 2)); lra.
Defined.

(** ** The legend and the frame *)

Lemma interpolateData_colors (nations : list Nation.t) (year : Q)
      (frame : list Snapshot.t) :
  interpolateData nations year = Some frame ->
  map color frame = map Nation.region nations /\
  map key frame = map Nation.name nations.
Proof.
  unfold interpolateData. revert frame.
  induction nations as [|d nations IH]; intros frame; simpl.
  - intros E. injection E as <-. split; reflexivity.
  - destruct (interpolateValues (Nation.income d) year); [|discriminate].
    destruct (interpolateValues (Nation.population d) year); [|discriminate].
    destruct (interpolateValues (Nation.lifeExpectancy d) year);
      [|discriminate].
    simpl.
    destruct (mapM _ nations) as [rest|]; [|discriminate]. simpl.
    intros E. injection E as <-.
    destruct (IH rest eq_refl) as [Hc Hk]. simpl.
    split; f_equal; assumption.
Qed.

(** The legend and the dots agree: in every frame the colour key of every
    snapshot is a region of the legend, every region of the legend is the
    colour key of some snapshot, and the snapshots carry the nations' names
    as keys, in the order of the dataset. *)
Theorem legend_covers_frame (nations : list Nation.t) (year : Q)
        (frame : list Snapshot.t) :
  interpolateData nations year = Some frame ->
  (forall s, In s frame -> In (color s) (regions nations)) /\
  (forall r, In r (regions nations) ->
             exists s, In s frame /\ color s = r) /\
  map key frame = map Nation.name nations.
Proof.
  intros E. destruct (interpolateData_colors nations year frame E) as [Hc Hk].
  destruct (regions_fold nations []) as (_ & Hin & _). simpl in Hin.
  repeat split; auto.
  - intros s Hs. apply Hin. right.
    assert (In (color s) (map Nation.region nations)) as H
      by (rewrite <- Hc; now apply in_map).
    apply in_map_iff in H. destruct H as (d & Hd & Hdin). eauto.
  - intros r Hr. apply Hin in Hr. destruct Hr as [[]|(d & Hd & <-)].
    assert (In (Nation.region d) (map color frame)) as H
      by (rewrite Hc; now apply in_map).
    apply in_map_iff in H. destruct H as (s & Hs & Hsin). eauto.
Qed.

Lemma legend_covers_frame_witness :
  (forall s, In s ex_nations_frame -> In (color s) (regions ex_nations)) /\
  (forall r, In r (regions ex_nations) ->
             exists s, In s ex_nations_frame /\ color s = r) /\
  map key ex_nations_frame = map Nation.name ex_nations.
Proof.
  apply (legend_covers_frame ex_nations 1950 ex_nations_frame).
  vm_compute. reflexivity.
Defined.

(** * The script on binary64 *)

(** ** The order of doubles *)

Ltac sf_cases :=
  repeat match goal with
         | x : Binary64.double |- _ => destruct x as [[]|[]| |[] ? ?]
         end.

(** [<] on doubles is transitive: it compares sign, exponent and mantissa
    in this order. *)
Lemma b64_ltb_trans (x y z : Binary64.double) :
  Binary64.ltb x y = true -> Binary64.ltb y z = true ->
  Binary64.ltb x z = true.
Proof.
  unfold Binary64.ltb, SFltb, SFcompare. sf_cases; simpl;
    try discriminate; try reflexivity;
    repeat match goal with
           | |- context [Z.compare ?a ?b] =>
               destruct (Z.compare_spec a b); subst
           | |- context [Pos.compare_cont Eq ?a ?b] =>
               change (Pos.compare_cont Eq a b) with (Pos.compare a b);
               destruct (Pos.compare_spec a b); subst
           end; simpl; try discriminate; try reflexivity; intros; lia.
Qed.

(** Closes the ordering of a series of doubles given by its samples. *)
Ltac sorted_doubles :=
  repeat (constructor; try (vm_compute; reflexivity)).

(** ** The bisector on doubles *)

(** The test of the loop, [compare(a[mid], x) < 0], is [a[mid][0] < x]. *)
Lemma b64_ascending_neg (a b : Binary64.double) :
  Binary64.ltb (Binary64.ascending a b) (Binary64.of_Z 0) = Binary64.ltb a b.
Proof.
  unfold Binary64.ascending, Binary64.gtb.
  destruct (Binary64.ltb a b); [reflexivity|].
  destruct (SFltb b a); [reflexivity|].
  destruct (Binary64.geb a b); reflexivity.
Qed.

Lemma b64_bisect_test (d : Binary64.Sample) (x : Binary64.double) :
  Binary64.ltb (Binary64.bisect_compare d x) (Binary64.of_Z 0)
  = Binary64.ltb (fst d) x.
Proof.
  unfold Binary64.bisect_compare, Binary64.bisect_accessor.
  apply b64_ascending_neg.
Qed.

(** As on the exact numbers: on a window inside the array the loop reads
    only defined elements and returns an index [r] of the window; the
    element before [r], when the loop moved [lo], compared below [x], and
    the element at [r], when the loop moved [hi], did not. *)
Lemma b64_bisect_left_post (a : Binary64.Series) (x : Binary64.double)
      (lo hi : Z) :
  (0 <= lo)%Z -> (hi <= length_of a)%Z ->
  exists r, Binary64.bisect_left a x lo hi = Some r /\
    (lo <= r)%Z /\ (r <= Z.max lo hi)%Z /\
    ((lo < r)%Z -> exists d, index a (r - 1) = Some d /\
                             Binary64.ltb (fst d) x = true) /\
    ((r < hi)%Z -> exists d, index a r = Some d /\
                             Binary64.ltb (fst d) x = false).
Proof.
  funelim (Binary64.bisect_left a x lo hi); intros Hlo Hhi.
  - exists lo. repeat split; try lia.
  - match goal with E : index _ _ = None |- _ => rename E into Hmid end.
    pose proof (shiftr1_bounds _ _ l) as Hb.
    destruct (index_in_range a (Z.shiftr (lo + hi) 1)) as [d Hd]; [lia|].
    congruence.
  - match goal with E : index _ _ = Some _ |- _ => rename E into Hmid end.
    match goal with E : Binary64.ltb _ _ = true |- _ => rename E into Htest end.
    rewrite b64_bisect_test in Htest.
    pose proof (shiftr1_bounds _ _ l) as Hb.
    match goal with IH : (0 <= _)%Z -> _ |- _ =>
      destruct IH as (r & Hr & H1 & H2 & H3 & H4); [lia | lia |] end.
    exists r. repeat split; try lia; auto.
    intros _. destruct (Z.eq_dec r (Z.shiftr (lo + hi) 1 + 1)) as [->|Hne].
    + exists d. split; [|exact Htest].
      now replace (Z.shiftr (lo + hi) 1 + 1 - 1)%Z with (Z.shiftr (lo + hi) 1) by lia.
    + apply H3. lia.
  - match goal with E : index _ _ = Some _ |- _ => rename E into Hmid end.
    match goal with E : Binary64.ltb _ _ = false |- _ => rename E into Htest end.
    rewrite b64_bisect_test in Htest.
    pose proof (shiftr1_bounds _ _ l) as Hb.
    match goal with IH : (0 <= _)%Z -> _ |- _ =>
      destruct IH as (r & Hr & H1 & H2 & H3 & H4); [lia | lia |] end.
    exists r. repeat split; try lia; auto.
    intros _. destruct (Z.eq_dec r (Z.shiftr (lo + hi) 1)) as [->|Hne].
    + exists d. split; [exact Hmid | exact Htest].
    + apply H4. lia.
Qed.

(** The bisection of a non-empty series of doubles for a year. *)
Lemma b64_bisect_year (values : Binary64.Series) (year : Binary64.double) :
  values <> [] ->
  exists i a,
    Binary64.bisect_left values year 0 (length_of values - 1) = Some i /\
    (0 <= i <= length_of values - 1)%Z /\
    index values i = Some a /\
    ((0 < i)%Z -> exists b, index values (i - 1) = Some b /\
                            Binary64.ltb (fst b) year = true) /\
    ((i < length_of values - 1)%Z -> Binary64.ltb (fst a) year = false).
Proof.
  intros Hne.
  assert (1 <= length_of values)%Z as Hlen.
  { unfold length_of. destruct values; [congruence | simpl; lia]. }
  destruct (b64_bisect_left_post values year 0 (length_of values - 1))
    as (r & Hr & H1 & H2 & H3 & H4); [lia | lia |].
  destruct (index_in_range values r) as [a Ha]; [lia|].
  exists r, a. repeat split; auto; try lia.
  intros Hlt. destruct (H4 Hlt) as (d & Hd & Ht).
  rewrite Ha in Hd. now injection Hd as <-.
Qed.

(** What [interpolateValues] evaluates once the bisection index is known:
    the expression of the script on the sample at the index and the one
    before it. *)
Lemma b64_interpolateValues_interior (values : Binary64.Series)
      (year : Binary64.double) (i : Z) (a b : Binary64.Sample) :
  Binary64.bisect_left values year 0 (length_of values - 1) = Some i ->
  (0 < i)%Z ->
  index values i = Some a -> index values (i - 1) = Some b ->
  Binary64.interpolateValues values year = Some (Binary64.lerp_code a b year).
Proof.
  intros Hi Hpos Ha Hb. unfold Binary64.interpolateValues. rewrite Hi. simpl.
  rewrite Ha. simpl. destruct (Z.ltb_spec 0 i); [|lia].
  rewrite Hb. reflexivity.
Qed.

Lemma b64_strictly_sorted_lt (s : Binary64.Series) (i j : nat)
      (a b : Binary64.Sample) :
  Binary64.strictly_sorted_by_year s -> (i < j)%nat ->
  nth_error s i = Some a -> nth_error s j = Some b ->
  Binary64.ltb (fst a) (fst b) = true.
Proof.
  intros H.
  apply (Sorted_nth _ Binary64.year_lt
           (fun x y z => b64_ltb_trans (fst x) (fst y) (fst z)) _ H).
Qed.

(** A year after the last sample of a strictly ascending series: the last
    index, which the loop never reads. *)
Lemma b64_bisect_past_last (values : Binary64.Series) (n : nat)
      (a : Binary64.Sample) (y : Binary64.double) :
  Binary64.strictly_sorted_by_year values -> List.length values = S n ->
  nth_error values n = Some a -> Binary64.ltb (fst a) y = true ->
  Binary64.bisect_left values y 0 (length_of values - 1) = Some (Z.of_nat n).
Proof.
  intros Hs Hlen Hn Hy.
  destruct (b64_bisect_year values y (nth_error_nonempty _ _ _ Hn))
    as (i & c & Hi & Hrange & Hc & _ & Hright).
  rewrite Hi. f_equal. unfold length_of in *. rewrite Hlen in *.
  destruct (Z_lt_le_dec i (Z.of_nat (S n) - 1)) as [Hlt|]; [|lia]. exfalso.
  specialize (Hright Hlt). apply index_nth in Hc.
  assert (Binary64.ltb (fst c) (fst a) = true) as Hca
    by (apply (b64_strictly_sorted_lt values (Z.to_nat i) n _ _ Hs); auto; lia).
  rewrite (b64_ltb_trans _ _ _ Hca Hy) in Hright. discriminate.
Qed.

(** ** The interior expression *)

(** C1, as the script has it.  In a series of doubles of at least two
    samples with strictly ascending years, when the bisection index [i] is
    positive, [interpolateValues] returns the script's expression
    [a[1] * (1 - tc) + b[1] * tc], [tc = (year - a[0]) / (b[0] - a[0])],
    evaluated in binary64 on [a = values[i]] and the earlier sample
    [b = values[i-1]]; read in exact arithmetic, that expression is the
    formula of the specification, [b.value * (1 - t) + a.value * t] with
    [t = (year - b.year) / (a.year - b.year)]. *)
Theorem interior_expression_binary64 (values : Binary64.Series)
        (year : Binary64.double) (i : Z) :
  (2 <= List.length values)%nat ->
  Binary64.strictly_sorted_by_year values ->
  Binary64.bisect_left values year 0 (length_of values - 1) = Some i ->
  (0 < i)%Z ->
  exists a b,
    index values i = Some a /\ index values (i - 1) = Some b /\
    Binary64.ltb (fst b) (fst a) = true /\
    Binary64.interpolateValues values year
      = Some (Binary64.lerp_code a b year) /\
    (forall (qa qb : Sample) (y : Q),
        ~ fst qa == fst qb -> lerp_code qa qb y == lerp_spec qa qb y).
Proof.
  intros Hlen Hs Hi Hpos.
  assert (values <> []) as Hne
    by (destruct values; [simpl in Hlen; lia | congruence]).
  destruct (b64_bisect_year values year Hne)
    as (i' & a & Hi' & Hrange & Ha & Hleft & _).
  rewrite Hi in Hi'. injection Hi' as <-.
  destruct (Hleft Hpos) as (b & Hb & _).
  exists a, b. repeat split; auto.
  - apply (b64_strictly_sorted_lt values (Z.to_nat (i - 1)) (Z.to_nat i) _ _ Hs).
    + lia.
    + now apply index_nth.
    + now apply index_nth.
  - now apply b64_interpolateValues_interior with (i := i).
  - intros qa qb y. apply lerp_code_spec.
Qed.

Lemma interior_expression_binary64_witness :
  exists a b,
    index Binary64.ex_series 2 = Some a /\
    index Binary64.ex_series (2 - 1) = Some b /\
    Binary64.ltb (fst b) (fst a) = true /\
    Binary64.interpolateValues Binary64.ex_series (Binary64.of_Z 1950)
      = Some (Binary64.lerp_code a b (Binary64.of_Z 1950)) /\
    (forall (qa qb : Sample) (y : Q),
        ~ fst qa == fst qb -> lerp_code qa qb y == lerp_spec qa qb y).
Proof.
  apply (interior_expression_binary64 Binary64.ex_series
           (Binary64.of_Z 1950) 2).
  - simpl. lia.
  - unfold Binary64.ex_series. sorted_doubles.
  - vm_compute. reflexivity.
  - lia.
Defined.

(** C1, as stated, fails on doubles: on [[0, 0], [3, 1]] at the year 1 the
    index is 1, the script returns 0.33333333333333337 (6004799503160662
    * 2^-54) and the formula of the specification, evaluated on the same
    doubles, 0.33333333333333331 (6004799503160661 * 2^-54). *)
Lemma interior_formula_counterexample :
  (2 <= List.length Binary64.thirds_series)%nat /\
  Binary64.strictly_sorted_by_year Binary64.thirds_series /\
  Binary64.bisect_left Binary64.thirds_series (Binary64.of_Z 1) 0
    (length_of Binary64.thirds_series - 1) = Some 1%Z /\
  index Binary64.thirds_series 1 = Some (Binary64.of_Z 3, Binary64.of_Z 1) /\
  index Binary64.thirds_series (1 - 1)
    = Some (Binary64.of_Z 0, Binary64.of_Z 0) /\
  Binary64.interpolateValues Binary64.thirds_series (Binary64.of_Z 1)
    = Some (S754_finite false 6004799503160662 (-54)) /\
  Binary64.lerp_spec (Binary64.of_Z 3, Binary64.of_Z 1)
                     (Binary64.of_Z 0, Binary64.of_Z 0) (Binary64.of_Z 1)
    = S754_finite false 6004799503160661 (-54) /\
  Binary64.eqb (S754_finite false 6004799503160662 (-54))
               (S754_finite false 6004799503160661 (-54)) = false.
Proof.
  split; [simpl; lia|].
  split; [unfold Binary64.thirds_series; sorted_doubles|].
  repeat split; vm_compute; reflexivity.
Qed.

(** ** Equal years *)

Lemma b64_eqb_sub_zero (x y : Binary64.double) :
  Binary64.is_finite x = true -> Binary64.eqb x y = true ->
  Binary64.is_zero (Binary64.sub y x) = true.
Proof.
  unfold Binary64.eqb, SFeqb, SFcompare.
  destruct x as [sx|sx| |sx mx ex], y as [sy|sy| |sy my ey];
    simpl; try discriminate; intros _ E;
    try (destruct sx; discriminate); try (destruct sy; discriminate).
  - destruct sx, sy; reflexivity.
  - assert (sx = sy /\ ex = ey /\ mx = my) as (<- & <- & <-).
    { destruct sx, sy; try discriminate;
        destruct (Z.compare_spec ex ey); try discriminate;
        change (Pos.compare_cont Eq mx my) with (Pos.compare mx my) in E;
        destruct (Pos.compare_spec mx my); try discriminate; auto. }
    unfold Binary64.sub, SFsub, shl_align.
    rewrite Z.min_id, Z.sub_diag. cbn [fst]. rewrite ?Z.sub_diag.
    reflexivity.
Qed.

(** A quotient by a zero is an infinity or NaN, whatever the dividend. *)
Lemma b64_div_zero_not_finite (n d : Binary64.double) :
  Binary64.is_zero d = true -> Binary64.is_finite (Binary64.div n d) = false.
Proof.
  destruct d; try discriminate. intros _. destruct n; reflexivity.
Qed.

(** The sum of the script on a fraction that is an infinity or NaN. *)
Lemma b64_lerp_sum_not_finite (av bv t : Binary64.double) :
  Binary64.is_finite t = false ->
  Binary64.is_finite
    (Binary64.add (Binary64.mul av (Binary64.sub (Binary64.of_Z 1) t))
                  (Binary64.mul bv t)) = false.
Proof.
  change (Binary64.of_Z 1) with (S754_finite false 4503599627370496 (-52)).
  destruct t as [st|st| |st mt et]; try discriminate; intros _;
    destruct av as [sa|sa| |sa ma ea], bv as [sb|sb| |sb mb eb];
    try reflexivity;
    repeat match goal with s : bool |- _ => destruct s end; reflexivity.
Qed.

(** C3, as the script has it.  When the two samples around the query year
    have equal years the script has no guard: the divisor
    [b[0] - a[0]] is a zero, the division is made all the same, the
    fraction is an infinity or NaN, and so is the value that
    [interpolateValues] returns. *)
Theorem duplicate_year_division_by_zero (values : Binary64.Series)
        (year : Binary64.double) (i : Z) (a b : Binary64.Sample) :
  Binary64.bisect_left values year 0 (length_of values - 1) = Some i ->
  (0 < i)%Z ->
  index values i = Some a -> index values (i - 1) = Some b ->
  Binary64.is_finite (fst a) = true ->
  Binary64.eqb (fst a) (fst b) = true ->
  Binary64.is_zero (Binary64.sub (fst b) (fst a)) = true /\
  Binary64.is_finite (Binary64.interpolation_fraction a b year) = false /\
  exists r, Binary64.interpolateValues values year = Some r /\
            Binary64.is_finite r = false.
Proof.
  intros Hi Hpos Ha Hb Hfin Hdup.
  pose proof (b64_eqb_sub_zero _ _ Hfin Hdup) as Hzero.
  pose proof (b64_div_zero_not_finite (Binary64.sub year (fst a)) _ Hzero)
    as Ht.
  split; [exact Hzero|]. split; [exact Ht|].
  rewrite (b64_interpolateValues_interior values year i a b Hi Hpos Ha Hb).
  eexists. split; [reflexivity|].
  unfold Binary64.lerp_code. cbv zeta.
  now apply b64_lerp_sum_not_finite.
Qed.

Lemma duplicate_year_division_by_zero_witness :
  Binary64.is_zero (Binary64.sub (fst (Binary64.of_Z 1900, Binary64.of_Z 20))
                                 (fst (Binary64.of_Z 1900, Binary64.of_Z 30)))
    = true /\
  Binary64.is_finite
    (Binary64.interpolation_fraction (Binary64.of_Z 1900, Binary64.of_Z 30)
       (Binary64.of_Z 1900, Binary64.of_Z 20) (Binary64.of_Z 1950)) = false /\
  exists r,
    Binary64.interpolateValues Binary64.dup_series (Binary64.of_Z 1950)
      = Some r /\
    Binary64.is_finite r = false.
Proof.
  apply (duplicate_year_division_by_zero Binary64.dup_series
           (Binary64.of_Z 1950) 2
           (Binary64.of_Z 1900, Binary64.of_Z 30)
           (Binary64.of_Z 1900, Binary64.of_Z 20)).
  - vm_compute. reflexivity.
  - lia.
  - reflexivity.
  - reflexivity.
  - reflexivity.
  - vm_compute. reflexivity.
Defined.

(** C3, as stated, fails: on [[1800, 10], [1900, 20], [1900, 30]] at the
    year 1950 the two samples around the year are those of 1900, the
    divisor is [1900 - 1900 = 0], the fraction is [50 / 0 = Infinity] and
    the script returns NaN, the value of no sample. *)
Lemma duplicate_year_counterexample :
  Binary64.bisect_left Binary64.dup_series (Binary64.of_Z 1950) 0
    (length_of Binary64.dup_series - 1) = Some 2%Z /\
  index Binary64.dup_series 2
    = Some (Binary64.of_Z 1900, Binary64.of_Z 30) /\
  index Binary64.dup_series (2 - 1)
    = Some (Binary64.of_Z 1900, Binary64.of_Z 20) /\
  Binary64.eqb (Binary64.of_Z 1900) (Binary64.of_Z 1900) = true /\
  Binary64.sub (Binary64.of_Z 1900) (Binary64.of_Z 1900) = S754_zero false /\
  Binary64.interpolation_fraction (Binary64.of_Z 1900, Binary64.of_Z 30)
    (Binary64.of_Z 1900, Binary64.of_Z 20) (Binary64.of_Z 1950)
    = S754_infinity false /\
  Binary64.interpolateValues Binary64.dup_series (Binary64.of_Z 1950)
    = Some S754_nan.
Proof.
  repeat split; vm_compute; reflexivity.
Qed.

(** ** Between two samples, on doubles *)


(** ** Past the last sample, on doubles *)

(** C6, as the script has it.  In a series of doubles of at least two
    samples with strictly ascending years, a query year after the last
    sample's year gets the last index from the bisection, whose window
    ends at [values.length - 1], and [interpolateValues] returns, instead
    of the last value as stored, the script's interior expression
    evaluated in binary64 on the last two samples,
    [a = values[length-1]] and [b = values[length-2]]. *)
Theorem extrapolation_expression_binary64 (values : Binary64.Series)
        (n : nat) (a b : Binary64.Sample) (y : Binary64.double) :
  Binary64.strictly_sorted_by_year values ->
  List.length values = S (S n) ->
  nth_error values (S n) = Some a -> nth_error values n = Some b ->
  Binary64.ltb (fst a) y = true ->
  Binary64.bisect_left values y 0 (length_of values - 1)
    = Some (length_of values - 1)%Z /\
  Binary64.interpolateValues values y = Some (Binary64.lerp_code a b y).
Proof.
  intros Hs Hlen Ha Hb Hy.
  pose proof (b64_bisect_past_last values (S n) a y Hs Hlen Ha Hy) as Hi.
  assert (length_of values - 1 = Z.of_nat (S n))%Z as Hlast
    by (unfold length_of; rewrite Hlen; lia).
  split; [rewrite Hi, Hlast; reflexivity|].
  apply b64_interpolateValues_interior with (i := Z.of_nat (S n)); auto.
  - lia.
  - now rewrite index_of_nat.
  - replace (Z.of_nat (S n) - 1)%Z with (Z.of_nat n) by lia.
    now rewrite index_of_nat.
Qed.

Lemma extrapolation_expression_binary64_witness :
  Binary64.bisect_left Binary64.ex_series (Binary64.of_Z 2100) 0
    (length_of Binary64.ex_series - 1)
    = Some (length_of Binary64.ex_series - 1)%Z /\
  Binary64.interpolateValues Binary64.ex_series (Binary64.of_Z 2100)
    = Some (Binary64.lerp_code (Binary64.of_Z 2000, Binary64.of_Z 40)
              (Binary64.of_Z 1900, Binary64.of_Z 20) (Binary64.of_Z 2100)).
Proof.
  apply (extrapolation_expression_binary64 Binary64.ex_series 1
           (Binary64.of_Z 2000, Binary64.of_Z 40)
           (Binary64.of_Z 1900, Binary64.of_Z 20) (Binary64.of_Z 2100)).
  - unfold Binary64.ex_series. sorted_doubles.
  - reflexivity.
  - reflexivity.
  - reflexivity.
  - vm_compute. reflexivity.
Defined.

(** C6, as stated, fails: the value is not always beyond the last one.
    On [[1800, 10], [1900, 20], [2000, 20]], whose last two values are
    equal, the year 2100 gets 20, the last value; and on
    [[2007, 1000000000], [2008, 1000000001]], whose values differ, the year
    2008 + 2^-40 gets exactly 1000000001, the last value, the excess being
    lost to rounding. *)
Lemma extrapolation_beyond_counterexample :
  (Binary64.strictly_sorted_by_year Binary64.flat_series /\
   List.length Binary64.flat_series = 3%nat /\
   nth_error Binary64.flat_series 2
     = Some (Binary64.of_Z 2000, Binary64.of_Z 20) /\
   Binary64.ltb (Binary64.of_Z 2000) (Binary64.of_Z 2100) = true /\
   Binary64.interpolateValues Binary64.flat_series (Binary64.of_Z 2100)
     = Some (Binary64.of_Z 20)) /\
  (Binary64.strictly_sorted_by_year Binary64.near_series /\
   List.length Binary64.near_series = 2%nat /\
   nth_error Binary64.near_series 1
     = Some (Binary64.of_Z 2008, Binary64.of_Z 1000000001) /\
   Binary64.ltb (Binary64.of_Z 2008) Binary64.near_year = true /\
   Binary64.ltb (Binary64.of_Z 1000000000) (Binary64.of_Z 1000000001)
     = true /\
   Binary64.interpolateValues Binary64.near_series Binary64.near_year
     = Some (Binary64.of_Z 1000000001)).
Proof.
  split.
  - split; [unfold Binary64.flat_series; sorted_doubles|].
    repeat split; vm_compute; reflexivity.
  - split; [unfold Binary64.near_series; sorted_doubles|].
    repeat split; vm_compute; reflexivity.
Qed.

(** ** Doubles and their exact values *)

Section Binary64Order.
Local Open Scope Z_scope.

Lemma b64_digits2_pos_bounds (m : positive) :
  (2 ^ (Zpos (digits2_pos m) - 1) <= Zpos m < 2 ^ (Zpos (digits2_pos m)))%Z.
Proof.
  induction m as [p IH|p IH|]; simpl digits2_pos.
  - rewrite Pos2Z.inj_succ.
    replace (Z.succ (Zpos (digits2_pos p)) - 1) with (Z.succ (Zpos (digits2_pos p) - 1)) by lia.
    rewrite !Z.pow_succ_r by lia. lia.
  - rewrite Pos2Z.inj_succ.
    replace (Z.succ (Zpos (digits2_pos p)) - 1) with (Z.succ (Zpos (digits2_pos p) - 1)) by lia.
    rewrite !Z.pow_succ_r by lia. lia.
  - simpl. lia.
Qed.

Lemma b64_valid_finite_bounds (s : bool) (m : positive) (e : Z) :
  Binary64.valid (S754_finite s m e) = true ->
  -1074 <= e /\ Zpos m < 2 ^ 53 /\ (-1074 < e -> 2 ^ 52 <= Zpos m).
Proof.
  unfold Binary64.valid, valid_binary, bounded, canonical_mantissa, fexp, emin,
    Binary64.prec, Binary64.emax.
  rewrite !andb_true_iff, Z.eqb_eq. intros [[Hc _] _].
  pose proof (b64_digits2_pos_bounds m) as [Hlo Hhi].
  set (d := Zpos (digits2_pos m)) in *.
  assert (0 < d) by (unfold d; lia).
  assert (d <= 53) by lia.
  split; [lia|]. split.
  - apply Z.lt_le_trans with (1 := Hhi). apply Z.pow_le_mono_r; lia.
  - intros He. assert (d = 53) as Hd by lia. rewrite Hd in Hlo. exact Hlo.
Qed.

Lemma b64_magnitude_compare (m1 m2 : positive) (e1 e2 : Z) :
  -1074 <= e1 -> Zpos m1 < 2 ^ 53 -> (-1074 < e1 -> 2 ^ 52 <= Zpos m1) ->
  -1074 <= e2 -> Zpos m2 < 2 ^ 53 -> (-1074 < e2 -> 2 ^ 52 <= Zpos m2) ->
  match e1 ?= e2 with
  | Lt => Lt
  | Gt => Gt
  | Eq => Pos.compare_cont Eq m1 m2
  end = (Zpos m1 * 2 ^ (e1 + 1074) ?= Zpos m2 * 2 ^ (e2 + 1074)).
Proof.
  intros He1 Hm1 Hn1 He2 Hm2 Hn2.
  change (2 ^ 53) with 9007199254740992 in *.
  change (2 ^ 52) with 4503599627370496 in *.
  destruct (Z.compare_spec e1 e2) as [->|Hlt|Hgt].
  - change (Pos.compare_cont Eq m1 m2) with (Pos.compare m1 m2).
    rewrite <- Zmult_compare_compat_r
      by (apply Z.lt_gt, Z.pow_pos_nonneg; lia).
    reflexivity.
  - symmetry. apply Z.compare_lt_iff.
    replace (e2 + 1074) with ((e1 + 1074) + (e2 - e1)) by lia.
    rewrite (Z.pow_add_r 2 (e1 + 1074) (e2 - e1)) by lia.
    assert (0 < 2 ^ (e1 + 1074)) by (apply Z.pow_pos_nonneg; lia).
    assert (2 ^ 1 <= 2 ^ (e2 - e1)) by (apply Z.pow_le_mono_r; lia).
    change (2 ^ 1) with 2 in *.
    specialize (Hn2 ltac:(lia)).
    set (P := 2 ^ (e1 + 1074)) in *. set (K := 2 ^ (e2 - e1)) in *.
    assert (2 * P <= P * K) by nia.
    assert (Zpos m1 * P <= 9007199254740991 * P)
      by (apply Z.mul_le_mono_nonneg_r; lia).
    assert (4503599627370496 * (P * K) <= Zpos m2 * (P * K))
      by (apply Z.mul_le_mono_nonneg_r; lia).
    lia.
  - symmetry. apply Z.compare_gt_iff.
    replace (e1 + 1074) with ((e2 + 1074) + (e1 - e2)) by lia.
    rewrite (Z.pow_add_r 2 (e2 + 1074) (e1 - e2)) by lia.
    assert (0 < 2 ^ (e2 + 1074)) by (apply Z.pow_pos_nonneg; lia).
    assert (2 ^ 1 <= 2 ^ (e1 - e2)) by (apply Z.pow_le_mono_r; lia).
    change (2 ^ 1) with 2 in *.
    specialize (Hn1 ltac:(lia)).
    set (P := 2 ^ (e2 + 1074)) in *. set (K := 2 ^ (e1 - e2)) in *.
    assert (2 * P <= P * K) by nia.
    assert (Zpos m2 * P <= 9007199254740991 * P)
      by (apply Z.mul_le_mono_nonneg_r; lia).
    assert (4503599627370496 * (P * K) <= Zpos m1 * (P * K))
      by (apply Z.mul_le_mono_nonneg_r; lia).
    lia.
Qed.

Lemma b64_compare_scaled_int (x y : Binary64.double) :
  Binary64.valid x = true -> Binary64.valid y = true ->
  SFcompare x y = Some (Binary64.scaled_int x ?= Binary64.scaled_int y).
Proof.
  destruct x as [sx|sx| |sx mx ex], y as [sy|sy| |sy my ey];
    try discriminate; intros Hx Hy.
  - reflexivity.
  - apply b64_valid_finite_bounds in Hy. destruct Hy as (He & Hm & Hn).
    assert (0 < Zpos my * 2 ^ (ey + 1074))
      by (apply Z.mul_pos_pos; [lia | apply Z.pow_pos_nonneg; lia]).
    unfold SFcompare, Binary64.scaled_int. f_equal. symmetry.
    destruct sy; simpl cond_Zopp.
    + apply Z.compare_gt_iff. lia.
    + apply Z.compare_lt_iff. lia.
  - apply b64_valid_finite_bounds in Hx. destruct Hx as (He & Hm & Hn).
    assert (0 < Zpos mx * 2 ^ (ex + 1074))
      by (apply Z.mul_pos_pos; [lia | apply Z.pow_pos_nonneg; lia]).
    unfold SFcompare, Binary64.scaled_int. f_equal. symmetry.
    destruct sx; simpl cond_Zopp.
    + apply Z.compare_lt_iff. lia.
    + apply Z.compare_gt_iff. lia.
  - apply b64_valid_finite_bounds in Hx. destruct Hx as (Hex & Hmx & Hnx).
    apply b64_valid_finite_bounds in Hy. destruct Hy as (Hey & Hmy & Hny).
    pose proof (b64_magnitude_compare mx my ex ey Hex Hmx Hnx Hey Hmy Hny) as Hc.
    assert (0 < Zpos mx * 2 ^ (ex + 1074))
      by (apply Z.mul_pos_pos; [lia | apply Z.pow_pos_nonneg; lia]).
    assert (0 < Zpos my * 2 ^ (ey + 1074))
      by (apply Z.mul_pos_pos; [lia | apply Z.pow_pos_nonneg; lia]).
    unfold SFcompare, Binary64.scaled_int. f_equal.
    destruct sx, sy; unfold cond_Zopp.
    + change (- Zpos mx) with (Z.opp (Zpos mx)).
      rewrite !Z.mul_opp_l, Z.compare_opp.
      rewrite (Z.compare_antisym (Zpos mx * 2 ^ (ex + 1074))), <- Hc.
      destruct (ex ?= ey); reflexivity.
    + symmetry. apply Z.compare_lt_iff. lia.
    + symmetry. apply Z.compare_gt_iff. lia.
    + exact Hc.
Qed.

End Binary64Order.

(** On doubles in normal form the comparison of the format is the
    comparison of the exact values. *)
Lemma b64_compare_value (x y : Binary64.double) :
  Binary64.valid x = true -> Binary64.valid y = true ->
  SFcompare x y = Some (Binary64.value x ?= Binary64.value y).
Proof.
  intros Hx Hy. rewrite (b64_compare_scaled_int x y Hx Hy). f_equal.
  unfold Qcompare, Binary64.value. cbn [Qnum Qden].
  apply Zmult_compare_compat_r. reflexivity.
Qed.

Lemma b64_ltb_value (x y : Binary64.double) :
  Binary64.valid x = true -> Binary64.valid y = true ->
  Binary64.ltb x y = nltb (Fin (Binary64.value x)) (Fin (Binary64.value y)).
Proof.
  intros Hx Hy. unfold Binary64.ltb, SFltb.
  rewrite (b64_compare_value x y Hx Hy). reflexivity.
Qed.

Lemma b64_ltb_lt (x y : Binary64.double) :
  Binary64.valid x = true -> Binary64.valid y = true ->
  Binary64.ltb x y = true -> Binary64.value x < Binary64.value y.
Proof.
  intros Hx Hy H. rewrite (b64_ltb_value x y Hx Hy) in H.
  now apply nltb_Fin.
Qed.

Lemma b64_leb_le (x y : Binary64.double) :
  Binary64.valid x = true -> Binary64.valid y = true ->
  Binary64.leb x y = true -> Binary64.value x <= Binary64.value y.
Proof.
  intros Hx Hy. unfold Binary64.leb, SFleb.
  rewrite (b64_compare_value x y Hx Hy). rewrite Qle_alt.
  destruct (Binary64.value x ?= Binary64.value y); congruence.
Qed.

(** ** The exact reading selects the samples the script selects *)

Lemma bisect_left_step (a : Series) (x : number) (lo hi : Z) :
  bisect_left a x lo hi =
  if Z_lt_dec lo hi then
    match index a (Z.shiftr (lo + hi) 1) with
    | None => None
    | Some d =>
        if nltb (bisect_compare d x) (Fin 0)
        then bisect_left a x (Z.shiftr (lo + hi) 1 + 1) hi
        else bisect_left a x lo (Z.shiftr (lo + hi) 1)
    end
  else Some lo.
Proof.
  funelim (bisect_left a x lo hi);
    destruct (Z_lt_dec lo hi); try lia; try reflexivity;
    repeat match goal with
           | E : index _ _ = _ |- _ => rewrite E; clear E
           | E : nltb _ _ = _ |- _ => rewrite E; clear E
           end; reflexivity.
Qed.

Lemma b64_index_exact (a : Binary64.Series) (i : Z) :
  index (exact_series a) i = option_map exact_sample (index a i).
Proof.
  unfold index, exact_series. destruct (i <? 0)%Z; [reflexivity|].
  apply nth_error_map.
Qed.

Lemma b64_bisect_left_exact (a : Binary64.Series) (x : Binary64.double)
      (lo hi : Z) :
  Forall Binary64.valid_sample a -> Binary64.valid x = true ->
  Binary64.bisect_left a x lo hi
  = bisect_left (exact_series a) (Fin (Binary64.value x)) lo hi.
Proof.
  funelim (Binary64.bisect_left a x lo hi); intros Ha Hx;
    rewrite bisect_left_step; destruct (Z_lt_dec lo hi); try lia;
    try reflexivity; rewrite b64_index_exact;
    match goal with E : index _ _ = _ |- _ => rewrite E end;
    try reflexivity; cbn [option_map].
  - match goal with E : Binary64.ltb _ _ = true |- _ => rename E into Ht end.
    match goal with E : index _ _ = Some _ |- _ => rename E into Hd end.
    assert (Binary64.valid_sample d) as [Hv _].
    { rewrite Forall_forall in Ha. apply Ha.
      apply index_nth in Hd. eapply nth_error_In; eauto. }
    rewrite b64_bisect_test, (b64_ltb_value _ _ Hv Hx) in Ht.
    unfold bisect_compare, bisect_accessor. rewrite ascending_neg.
    cbn [exact_sample fst]. rewrite Ht. auto.
  - match goal with E : Binary64.ltb _ _ = false |- _ => rename E into Ht end.
    match goal with E : index _ _ = Some _ |- _ => rename E into Hd end.
    assert (Binary64.valid_sample d) as [Hv _].
    { rewrite Forall_forall in Ha. apply Ha.
      apply index_nth in Hd. eapply nth_error_In; eauto. }
    rewrite b64_bisect_test, (b64_ltb_value _ _ Hv Hx) in Ht.
    unfold bisect_compare, bisect_accessor. rewrite ascending_neg.
    cbn [exact_sample fst]. rewrite Ht. auto.
Qed.

Lemma b64_Sorted_exact (R : Binary64.Sample -> Binary64.Sample -> Prop)
      (R' : Sample -> Sample -> Prop) (l : Binary64.Series) :
  (forall a b, Binary64.valid_sample a -> Binary64.valid_sample b ->
               R a b -> R' (exact_sample a) (exact_sample b)) ->
  Forall Binary64.valid_sample l -> Sorted R l ->
  Sorted R' (exact_series l).
Proof.
  intros HR Hv Hs. induction Hs as [|a l Hs IH Ha]; simpl; constructor.
  - apply IH. now inversion Hv.
  - inversion Hv as [|? ? Hva Hvl]; subst.
    destruct Ha as [|b l Hab]; simpl; constructor.
    apply HR; auto. now inversion Hvl.
Qed.

Lemma b64_strictly_sorted_exact (values : Binary64.Series) :
  Forall Binary64.valid_sample values ->
  Binary64.strictly_sorted_by_year values ->
  strictly_sorted_by_year (exact_series values).
Proof.
  apply b64_Sorted_exact. intros a b [Ha _] [Hb _] H.
  now apply b64_ltb_lt.
Qed.

Lemma b64_strictly_increasing_exact (values : Binary64.Series) :
  Forall Binary64.valid_sample values ->
  Binary64.strictly_increasing_values values ->
  strictly_increasing_values (exact_series values).
Proof.
  apply b64_Sorted_exact. intros a b [_ Ha] [_ Hb] H.
  now apply b64_ltb_lt.
Qed.

Lemma exact_series_length (values : Binary64.Series) :
  length_of (exact_series values) = length_of values.
Proof. unfold length_of, exact_series. now rewrite length_map. Qed.


